(** * cleanco: business-name cleaning ([src/cleanco/clean.py])

    A shallow embedding of [clean.py] and the properties of its
    term catalog, boundary filter, overlap resolution and reconstruction.

    Python strings are lists of Unicode code points.  The tables of the
    Unicode database that the code consults through [str.isalnum],
    [str.split], [str.casefold] and [unicodedata] are a parameter of the
    development (class [Unicode]); the term lists of [termdata.py] and the
    map of [non_nfkd_map.py] are arguments of the functions that read them. *)

From Stdlib Require Import Ascii String.
From Stdlib Require Import List ZArith NArith Lia Bool Permutation Sorted.
Import ListNotations.

Local Open Scope list_scope.

(** ** Characters and strings *)

Definition char := N.
Definition str := list char.

(** An ASCII literal as a Python string. *)
Definition py (s : string) : str := map N_of_ascii (list_ascii_of_string s).
Arguments py s%_string.

Definition space : char := 32%N.
Definition dot : char := 46%N.
Definition comma : char := 44%N.
Definition hyphen : char := 45%N.

Definition str_eq_dec : forall a b : str, {a = b} + {a <> b} :=
  list_eq_dec N.eq_dec.

Definition str_eqb (a b : str) : bool :=
  if str_eq_dec a b then true else false.

(** ** The Unicode tables consulted by the code *)

Class Unicode := {
  (** [c.isalnum()] for a one-character string *)
  isalnum : char -> bool;
  (** [c.isspace()]: the separators of [str.split()] *)
  isspace : char -> bool;
  (** [c.casefold()]; [str.casefold] folds character by character *)
  casefold : char -> str;
  (** [unicodedata.combining(c) != 0] *)
  combining : char -> bool;
  (** [unicodedata.normalize('NFKD', s)] *)
  nfkd : str -> str;
  (** [unicodedata.category(c) == 'Mn'] *)
  category_Mn : char -> bool
}.

(** Facts of the Unicode database on which index alignment rests: the
    space is a separator of [split] and [.], [,] and [-] are not; a
    separator folds to itself and is not a combining character; what is
    not a separator folds to characters that are not separators. *)
Class UnicodeLaws (U : Unicode) : Prop := {
  isspace_space : isspace space = true;
  isspace_dot : isspace dot = false;
  isspace_comma : isspace comma = false;
  isspace_hyphen : isspace hyphen = false;
  casefold_space : forall c, isspace c = true -> casefold c = [c];
  combining_space : forall c, isspace c = true -> combining c = false;
  casefold_nonspace :
    forall c d, isspace c = false -> In d (casefold c) -> isspace d = false
}.

(** ** Exceptions *)

Inductive exn := IndexError | AttributeError.

Inductive result (A : Type) : Type :=
| Ok (a : A)
| Raise (e : exn).
Arguments Ok {A} a.
Arguments Raise {A} e.

Definition bind {A B} (r : result A) (k : A -> result B) : result B :=
  match r with
  | Ok a => k a
  | Raise e => Raise e
  end.

Notation "x <- c ;; k" := (bind c (fun x => k))
  (at level 61, c at next level, right associativity).

(** ** Python sequence primitives *)

(** [s[i]]: a negative index counts from the end; out of range raises. *)
Definition py_index {A} (l : list A) (i : Z) : result A :=
  let i' := if (i <? 0)%Z then (i + Z.of_nat (length l))%Z else i in
  if (i' <? 0)%Z then Raise IndexError
  else match nth_error l (Z.to_nat i') with
       | Some x => Ok x
       | None => Raise IndexError
       end.

(** A slice bound, clamped the way [PySlice_AdjustIndices] does. *)
Definition clamp (len i : Z) : Z :=
  if (i <? 0)%Z then Z.max 0 (i + len) else Z.min i len.

(** [l[a:b] = xs] *)
Definition slice_assign {A} (l : list A) (a b : Z) (xs : list A) : list A :=
  let len := Z.of_nat (length l) in
  let a' := clamp len a in
  let b' := Z.max a' (clamp len b) in
  firstn (Z.to_nat a') l ++ xs ++ skipn (Z.to_nat b') l.

(** [l.insert(idx, x)] for [idx >= 0]: past the end it appends. *)
Definition list_insert {A} (idx : nat) (x : A) (l : list A) : list A :=
  firstn idx l ++ x :: skipn idx l.

(** [enumerate(l)] *)
Definition enumerate {A} (l : list A) : list (nat * A) :=
  combine (seq 0 (length l)) l.

(** [s.replace(c, "")] for a one-character [c] *)
Definition remove_char (c : char) (s : str) : str :=
  filter (fun x => negb (N.eqb x c)) s.

(** [sep.join(l)] *)
Fixpoint join (sep : str) (l : list str) : str :=
  match l with
  | [] => []
  | x :: l' =>
      match l' with
      | [] => x
      | _ :: _ => x ++ sep ++ join sep l'
      end
  end.

(** [s.translate(table)] *)
Definition translate (table : char -> option str) (s : str) : str :=
  flat_map (fun c => match table c with Some r => r | None => [c] end) s.

(** [sorted(l, key=...)], given the order of the keys: a stable sort. *)
Fixpoint insert_sorted {A} (leb : A -> A -> bool) (x : A) (l : list A)
  : list A :=
  match l with
  | [] => [x]
  | y :: l' => if leb x y then x :: l else y :: insert_sorted leb x l'
  end.

Definition sorted {A} (leb : A -> A -> bool) (l : list A) : list A :=
  fold_right (insert_sorted leb) [] l.

(** Comparison of Python strings, by code points, and of lists of
    strings: both lexicographic. *)
Definition str_compare (a b : str) : comparison := list_compare N.compare a b.

Definition tokens_compare (a b : list str) : comparison :=
  list_compare str_compare a b.

Section Clean.

Context {U : Unicode}.

(** [s.casefold()] *)
Definition casefold_str (s : str) : str := flat_map casefold s.

(** [s.split()]: maximal runs of non-separators. *)
Definition flush (cur : str) : list str :=
  match cur with
  | [] => []
  | _ :: _ => [cur]
  end.

Fixpoint split_from (cur : str) (s : str) : list str :=
  match s with
  | [] => flush cur
  | c :: s' =>
      if isspace c then flush cur ++ split_from [] s'
      else split_from (cur ++ [c]) s'
  end.

Definition split (s : str) : list str := split_from [] s.

(** ** clean.py, top to bottom *)

Definition get_unique_terms
  (terms_by_type terms_by_country : list (str * list str)) : list str :=
  let ts := fold_left (fun acc v => acc ++ v) (map snd terms_by_type) [] in
  let cs := fold_left (fun acc v => acc ++ v) (map snd terms_by_country) [] in
  nodup str_eq_dec (ts ++ cs).

Definition TRANSLATION_TABLE (c : char) : option str :=
  if ((0x80 <=? c) && (c <? 0x10ffff))%N
  then Some (if combining c then [] else [c])
  else None.

Definition remove_accents_fast (text : str) : str :=
  translate TRANSLATION_TABLE (casefold_str text).

Definition remove_accents (NON_NFKD_MAP : char -> option str) (t : str)
  : str :=
  let nfkd_form := nfkd (casefold_str t) in
  flat_map
    (fun part =>
       flat_map
         (fun c =>
            if negb (category_Mn part)
            then match NON_NFKD_MAP c with Some r => r | None => [c] end
            else [])
         [part])
    nfkd_form.

Definition strip_punct (t : str) : str :=
  remove_char hyphen (remove_char comma (remove_char dot t)).

Definition normalize_terms (NON_NFKD_MAP : char -> option str)
  (terms : list str) : list str :=
  map (fun t => strip_punct (remove_accents NON_NFKD_MAP t)) terms.

(** [strip_tail] works from the right end: here on the reversed name. *)
Fixpoint strip_tail_rev (r : str) : str :=
  match r with
  | [] => []
  | c :: r' =>
      if negb (isalnum c) && negb (N.eqb c dot) then strip_tail_rev r'
      else r
  end.

Definition strip_tail (name : str) : str := rev (strip_tail_rev (rev name)).

Definition normalized (text : str) : str := remove_accents_fast text.

(** The sort key [(-len(x), x)] and its order. *)
Definition key_leb (x y : list str) : bool :=
  match Z.compare (- Z.of_nat (length x)) (- Z.of_nat (length y)) with
  | Lt => true
  | Gt => false
  | Eq => match tokens_compare x y with Gt => false | _ => true end
  end.

(** [prepare_default_terms], from the terms in the order in which the set
    of [get_unique_terms] happens to be iterated. *)
Definition prepare_terms (NON_NFKD_MAP : char -> option str)
  (terms : list str) : list (nat * list str) :=
  let nterms := normalize_terms NON_NFKD_MAP terms in
  let ntermparts := map split nterms in
  let sntermparts := sorted key_leb ntermparts in
  map (fun tp => (length tp, tp)) sntermparts.

Definition prepare_default_terms
  (terms_by_type terms_by_country : list (str * list str))
  (NON_NFKD_MAP : char -> option str) : list (nat * list str) :=
  prepare_terms NON_NFKD_MAP (get_unique_terms terms_by_type terms_by_country).

(** ** The Aho-Corasick automaton of [pyahocorasick]

    The words of the trie with their values, and the kind of the store:
    [EMPTY] until a word is added, [TRIE] until [make_automaton] runs on a
    store that holds a word, [AHOCORASICK] from then on.  [add_word]
    ignores the empty word and replaces the value of a word already there;
    [iter] refuses a store that is not [AHOCORASICK] with [AttributeError].
    [iter] reports, by increasing end position, every word that ends
    there, the longest first. *)

Inductive Kind := EMPTY | TRIE | AHOCORASICK.

Record Automaton := {
  kind : Kind;
  words : list (str * (nat * str))
}.

Definition new_automaton : Automaton := {| kind := EMPTY; words := [] |}.

Fixpoint assoc_get {V} (key : str) (l : list (str * V)) : option V :=
  match l with
  | [] => None
  | (k, v) :: l' => if str_eqb k key then Some v else assoc_get key l'
  end.

Fixpoint assoc_set {V} (key : str) (v : V) (l : list (str * V))
  : list (str * V) :=
  match l with
  | [] => [(key, v)]
  | (k, w) :: l' =>
      if str_eqb k key then (k, v) :: l' else (k, w) :: assoc_set key v l'
  end.

Definition add_word (a : Automaton) (key : str) (value : nat * str)
  : Automaton :=
  match key with
  | [] => a
  | _ :: _ => {| kind := TRIE; words := assoc_set key value (words a) |}
  end.

Definition make_automaton (a : Automaton) : Automaton :=
  match kind a with
  | TRIE => {| kind := AHOCORASICK; words := words a |}
  | _ => a
  end.

(** [s[b..e]], both ends included *)
Definition substring (s : str) (b e : nat) : str :=
  firstn (S e - b) (skipn b s).

Definition matches_ending_at (a : Automaton) (s : str) (e : nat)
  : list (Z * (nat * str)) :=
  flat_map
    (fun b => match assoc_get (substring s b e) (words a) with
              | Some v => [(Z.of_nat e, v)]
              | None => []
              end)
    (seq 0 (S e)).

Definition iter (a : Automaton) (s : str)
  : result (list (Z * (nat * str))) :=
  match kind a with
  | AHOCORASICK => Ok (flat_map (matches_ending_at a s) (seq 0 (length s)))
  | _ => Raise AttributeError
  end.

(** One round of the loop of [build_automaton] *)
Definition add_term (a : Automaton) (it : nat * (nat * list str))
  : Automaton :=
  let '(idx, (_, _term)) := it in
  let term := join [space] _term in
  add_word a term (idx, term).

Definition build_automaton (terms : list (nat * list str)) : Automaton :=
  make_automaton (fold_left add_term (enumerate terms) new_automaton).

(** ** The heap of accepted matches

    [heapq] as a priority queue: [heappop] hands out a least entry of the
    tuples [(priority_idx, (start_idx, end_idx, match))]; the pending
    entries are kept in increasing order. *)

Definition entry := (nat * (Z * Z * str))%type.

Definition entry_compare (x y : entry) : comparison :=
  let '(p, (s, e, m)) := x in
  let '(q, (t, f, n)) := y in
  match Nat.compare p q with
  | Eq => match Z.compare s t with
          | Eq => match Z.compare e f with
                  | Eq => str_compare m n
                  | c => c
                  end
          | c => c
          end
  | c => c
  end.

Definition entry_leb (x y : entry) : bool :=
  match entry_compare x y with Gt => false | _ => true end.

Definition heappush (h : list entry) (x : entry) : list entry :=
  insert_sorted entry_leb x h.

Definition heappop (h : list entry) : result (entry * list entry) :=
  match h with
  | [] => Raise IndexError
  | x :: h' => Ok (x, h')
  end.

(** ** [custom_basename] *)

Record Flags := { suffix : bool; prefix : bool; middle : bool }.

(** The defaults of the signature: [suffix=True, prefix=False, middle=False] *)
Definition default_flags : Flags :=
  {| suffix := true; prefix := false; middle := false |}.

(** Lines 166-177: the two conditions on one occurrence. *)
Definition cond_1 (nname : str) (start_idx : Z) : result bool :=
  c <- py_index nname (Z.max 0 (start_idx - 1)) ;;
  Ok (negb (isalnum c) || (start_idx =? 0)%Z).

Definition cond_2_boundary (nname : str) (end_idx : Z) : result bool :=
  let len := Z.of_nat (length nname) in
  if (end_idx =? len - 1)%Z then Ok true
  else c <- py_index nname (Z.min (len - 1) (end_idx + 1)) ;;
       Ok (negb (isalnum c)).

Definition cond_2_flags (f : Flags) (len start_idx end_idx : Z)
  (cond_2 : bool) : bool :=
  if middle f then
    let cond_2 :=
      if negb (prefix f) then cond_2 && negb (start_idx =? 0)%Z
      else cond_2 in
    if negb (suffix f) then cond_2 && negb (end_idx =? len - 1)%Z
    else cond_2
  else
    cond_2 && (((start_idx =? 0)%Z && prefix f)
               || ((end_idx =? len - 1)%Z && suffix f)).

Definition accept (nname : str) (f : Flags) (start_idx end_idx : Z)
  : result bool :=
  c1 <- cond_1 nname start_idx ;;
  c2 <- cond_2_boundary nname end_idx ;;
  let c2 := cond_2_flags f (Z.of_nat (length nname)) start_idx end_idx c2 in
  Ok (c1 && c2).

(** Lines 162-178: the loop over the occurrences *)
Fixpoint collect_matches (nname : str) (f : Flags)
  (occ : list (Z * (nat * str))) (matches : list entry)
  : result (list entry) :=
  match occ with
  | [] => Ok matches
  | (end_idx, (priority_idx, m)) :: occ' =>
      let start_idx := (end_idx - Z.of_nat (length m) + 1)%Z in
      ok <- accept nname f start_idx end_idx ;;
      collect_matches nname f occ'
        (if ok then heappush matches (priority_idx, (start_idx, end_idx, m))
         else matches)
  end.

(** Lines 188-190: one match written over the buffer *)
Definition mark_char (x : char) : char :=
  if negb (N.eqb x space) then dot else x.

Definition mark (m : str) : str := map mark_char m.

Definition apply_match (char_array : str) (x : entry) : str :=
  let '(_, (start_idx, end_idx, m)) := x in
  slice_assign char_array start_idx (end_idx + 1) (mark m).

(** Lines 184-190: [n] rounds of [heappop] *)
Fixpoint pop_all (n : nat) (matches : list entry) (char_array : str)
  : result str :=
  match n with
  | O => Ok char_array
  | S n' =>
      p <- heappop matches ;;
      pop_all n' (snd p) (apply_match char_array (fst p))
  end.

(** Lines 151-158 *)
Definition non_alphanum (nparts : list str) : list (nat * str) :=
  filter (fun it => str_eqb (strip_punct (snd it)) []) (enumerate nparts).

(** Lines 193-194 *)
Definition reinsert (toks : list (nat * str)) (tokens : list str)
  : list str :=
  fold_left (fun tokens it => list_insert (fst it) (snd it) tokens)
    toks tokens.

(** Lines 196-199, [idx] counting from [i] *)
Fixpoint build_final (nparts : list str) (i : nat) (tokens : list str)
  : result (list str) :=
  match tokens with
  | [] => Ok []
  | x :: tokens' =>
      if negb (length (remove_char dot x) =? 0) then
        p <- py_index nparts (Z.of_nat i) ;;
        rest <- build_final nparts (S i) tokens' ;;
        Ok (p :: rest)
      else build_final nparts (S i) tokens'
  end.

(** The body of [custom_basename] below line 146, against automaton [a]. *)
Definition clean (a : Automaton) (name : str) (f : Flags) : result str :=
  let name := strip_tail name in
  let nparts := split name in
  let non_alphanum_toks := non_alphanum nparts in
  let nname := normalized (strip_punct name) in
  occ <- iter a nname ;;
  matches <- collect_matches nname f occ [] ;;
  if length matches =? 0 then Ok name
  else
    char_array <- pop_all (length matches) matches nname ;;
    let tokens := split char_array in
    let tokens := reinsert non_alphanum_toks tokens in
    final <- build_final nparts 0 tokens ;;
    Ok (strip_tail (join [space] final)).

(** The global [global_automaton] is the state of the process:
    [None] until the first call. *)
Definition State := option Automaton.

Definition effective (global_automaton : State)
  (terms : list (nat * list str)) : Automaton :=
  match global_automaton with
  | None => build_automaton terms
  | Some a => a
  end.

Definition custom_basename (global_automaton : State) (name : str)
  (terms : list (nat * list str)) (f : Flags) : State * result str :=
  let a := effective global_automaton terms in
  (Some a, clean a name f).

End Clean.

(** ** A fragment of the Unicode tables

    The tables on the code points below [0x80] and on U+0301 (combining
    acute accent), enough to run the code on the inputs of the examples.
    NFKD leaves ASCII text as it is. *)

Definition frag_isalnum (c : char) : bool :=
  ((48 <=? c) && (c <=? 57) || (65 <=? c) && (c <=? 90)
   || (97 <=? c) && (c <=? 122))%N.

Definition frag_isspace (c : char) : bool :=
  ((9 <=? c) && (c <=? 13) || (28 <=? c) && (c <=? 32))%N.

Definition frag_casefold (c : char) : str :=
  if ((65 <=? c) && (c <=? 90))%N then [(c + 32)%N] else [c].

Definition frag_combining (c : char) : bool := (c =? 0x301)%N.

#[export] Instance frag : Unicode := {|
  isalnum := frag_isalnum;
  isspace := frag_isspace;
  casefold := frag_casefold;
  combining := frag_combining;
  nfkd := fun s => s;
  category_Mn := frag_combining
|}.

(** ** The rules of the specification, in its words (section 4.3) *)

Section Rules.

Context {U : Unicode}.

Definition char_at (s : str) (i : Z) : char := nth (Z.to_nat i) s 0%N.

(** [left_ok]: the match starts the text, or the character before it is
    not alphanumeric. *)
Definition spec_left_ok (nname : str) (start_char : Z) : bool :=
  (start_char =? 0)%Z || negb (isalnum (char_at nname (start_char - 1))).

(** The match ends the text, or the character after it is not
    alphanumeric. *)
Definition spec_right_boundary (nname : str) (end_char : Z) : bool :=
  let len := Z.of_nat (length nname) in
  (end_char =? len - 1)%Z || negb (isalnum (char_at nname (end_char + 1))).

(** [right_ok] with [middle] disabled *)
Definition spec_anchored (nname : str) (f : Flags) (start_char end_char : Z)
  : bool :=
  let len := Z.of_nat (length nname) in
  ((start_char =? 0)%Z && prefix f) || ((end_char =? len - 1)%Z && suffix f).

(** Accept iff [left_ok AND right_ok], with [middle] disabled *)
Definition spec_accept_no_middle (nname : str) (f : Flags)
  (start_char end_char : Z) : bool :=
  spec_left_ok nname start_char && spec_anchored nname f start_char end_char.

End Rules.

(** ** Invariants and auxiliary notions *)

(** The values of an automaton of [build_automaton] repeat their word,
    and no word is empty. *)
Definition wf_automaton (a : Automaton) : Prop :=
  forall k v, In (k, v) (words a) -> snd v = k /\ k <> [].

(** An occurrence as [iter] reports it: the end position and the value
    of a word that is the text of [nname] up to that position. *)
Definition genuine (nname : str) (o : Z * (nat * str)) : Prop :=
  let '(end_idx, (_, m)) := o in
  let start_idx := (end_idx - Z.of_nat (length m) + 1)%Z in
  m <> [] /\ (0 <= start_idx)%Z /\ (end_idx < Z.of_nat (length nname))%Z
  /\ m = substring nname (Z.to_nat start_idx) (Z.to_nat end_idx).

(** The states of the process: before the first call, and after an
    automaton has been built from some catalog. *)
Inductive reachable : State -> Prop :=
| reach_init : reachable None
| reach_built (terms : list (nat * list str)) :
    reachable (Some (build_automaton terms)).

(** A run of calls in one process *)
Record Call := {
  c_name : str;
  c_terms : list (nat * list str);
  c_flags : Flags
}.

Fixpoint run {U : Unicode} (st : State) (calls : list Call)
  : State * list (result str) :=
  match calls with
  | [] => (st, [])
  | c :: cs =>
      let r := custom_basename st (c_name c) (c_terms c) (c_flags c) in
      let rs := run (fst r) cs in
      (fst rs, snd r :: snd rs)
  end.

(** The matches that the boundary filter accepts for a request: the heap
    of [custom_basename] at line 180. *)
Definition accepted_matches {U : Unicode} (a : Automaton) (name : str)
  (f : Flags) : result (list entry) :=
  let name := strip_tail name in
  let nname := normalized (strip_punct name) in
  occ <- iter a nname ;;
  collect_matches nname f occ [].

(** An accepted match as line 178 pushes it *)
Definition genuine_entry (nname : str) (x : entry) : Prop :=
  let '(p, (start_idx, end_idx, m)) := x in
  start_idx = (end_idx - Z.of_nat (length m) + 1)%Z
  /\ genuine nname (end_idx, (p, m)).

(** The union of the accepted spans turned into markers, in the words of
    section 4.4: a character inside some span [[start_char, end_char]]
    becomes the period unless it is a space; the others stay. *)
Definition in_span (i : nat) (x : entry) : bool :=
  let '(_, (start_char, end_char, _)) := x in
  ((start_char <=? Z.of_nat i) && (Z.of_nat i <=? end_char))%Z.

Fixpoint mark_from (i : nat) (ms : list entry) (s : str) : str :=
  match s with
  | [] => []
  | c :: s' =>
      (if existsb (in_span i) ms then mark_char c else c)
      :: mark_from (S i) ms s'
  end.

Definition mark_union (nname : str) (ms : list entry) : str :=
  mark_from 0 ms nname.

(** The matches applied in the order of a list *)
Definition apply_all (char_array : str) (ms : list entry) : str :=
  fold_left apply_match ms char_array.

(** [x] outranks [y], in the words of section 3: [x] has more tokens, or
    as many and its token sequence does not come later. *)
Definition outranks (x y : list str) : Prop :=
  length y < length x
  \/ (length x = length y /\ tokens_compare x y <> Gt).

(** The value stored for a word names a position of the catalog that
    holds the tokens of that word. *)
Definition indexed_by (cat : list (nat * list str))
  (w : str * (nat * str)) : Prop :=
  let '(key, (priority_idx, term)) := w in
  term = key
  /\ exists tp, nth_error cat priority_idx = Some (length tp, tp)
               /\ join [space] tp = key.

(** White space inside a word of the automaton is the single space put
    there by [join]: the tokens of a catalog come out of [split]. *)
Definition space_only {U : Unicode} (m : str) : Prop :=
  forall c, In c m -> isspace c = true -> c = space.

Definition keys_space_only {U : Unicode} (a : Automaton) : Prop :=
  forall k v, In (k, v) (words a) -> space_only k.

Definition separator_free {U : Unicode} (terms : list (nat * list str))
  : bool :=
  forallb
    (fun e => forallb (fun t => forallb (fun c => negb (isspace c)) t) (snd e))
    terms.

(** The normalization of line 160, and a test for the empty string *)
Definition norm_all {U : Unicode} (s : str) : str :=
  normalized (strip_punct s).

Definition nonemptyb (t : str) : bool :=
  match t with
  | [] => false
  | _ :: _ => true
  end.

(** [l1] is [l2] with some elements left out. *)
Inductive subseq {A : Type} : list A -> list A -> Prop :=
| subseq_nil (l : list A) : subseq [] l
| subseq_skip (x : A) (l1 l2 : list A) : subseq l1 l2 -> subseq l1 (x :: l2)
| subseq_take (x : A) (l1 l2 : list A) :
    subseq l1 l2 -> subseq (x :: l1) (x :: l2).

(** ** [custom_basename_old] (lines 86-123) *)

(** [l[a:b]]; an open end is the length of the list. *)
Definition slice {A} (l : list A) (a b : Z) : list A :=
  let len := Z.of_nat (length l) in
  let a' := clamp len a in
  let b' := clamp len b in
  firstn (Z.to_nat (b' - a')) (skipn (Z.to_nat a') l).

(** [del l[a:b]] *)
Definition del_slice {A} (l : list A) (a b : Z) : list A :=
  slice_assign l a b [].

(** [del l[i]] *)
Definition del_index {A} (l : list A) (i : Z) : result (list A) :=
  let len := Z.of_nat (length l) in
  let i' := if (i <? 0)%Z then (i + len)%Z else i in
  if ((i' <? 0) || (len <=? i'))%Z then Raise IndexError
  else Ok (firstn (Z.to_nat i') l ++ skipn (S (Z.to_nat i')) l).

(** [a == b] on lists of strings *)
Definition tokens_eqb (a b : list str) : bool :=
  if list_eq_dec str_eq_dec a b then true else false.

(** [l.index(x)], [None] when [x not in l] *)
Fixpoint index_of (x : str) (l : list str) : option nat :=
  match l with
  | [] => None
  | y :: l' =>
      if str_eqb y x then Some 0
      else match index_of x l' with
           | Some i => Some (S i)
           | None => None
           end
  end.

(** [range(0, n)] *)
Definition range0 (n : Z) : list Z := map Z.of_nat (seq 0 (Z.to_nat n)).

(** A loop whose body may raise *)
Fixpoint fold_result {A B} (step : A -> B -> result A) (l : list B) (a : A)
  : result A :=
  match l with
  | [] => Ok a
  | x :: l' => a' <- step a x ;; fold_result step l' a'
  end.

(** The two token lists that the loops cut down together:
    [(nnparts, nparts)] *)
Definition Parts := (list str * list str)%type.

(** Lines 96-99: one round of the suffix loop *)
Definition suffix_step (st : Parts) (term : nat * list str) : Parts :=
  let '(nnparts, nparts) := st in
  let '(termsize, termparts) := term in
  let k := Z.of_nat termsize in
  if tokens_eqb (slice nnparts (- k) (Z.of_nat (length nnparts))) termparts
  then (del_slice nnparts (- k) (Z.of_nat (length nnparts)),
        del_slice nparts (- k) (Z.of_nat (length nparts)))
  else st.

(** Lines 102-105: one round of the prefix loop *)
Definition prefix_step (st : Parts) (term : nat * list str) : Parts :=
  let '(nnparts, nparts) := st in
  let '(termsize, termparts) := term in
  let k := Z.of_nat termsize in
  if tokens_eqb (slice nnparts 0 k) termparts
  then (del_slice nnparts 0 k, del_slice nparts 0 k)
  else st.

(** Lines 113-115: one position of the inner loop *)
Definition middle_at (k : Z) (termparts : list str) (st : Parts) (i : Z)
  : Parts :=
  let '(nnparts, nparts) := st in
  if tokens_eqb termparts (slice nnparts i (i + k))
  then (del_slice nnparts i (i + k), del_slice nparts i (i + k))
  else st.

(** Lines 108-120: one round of the middle loop; [nnsize] is the number
    of normalized tokens before any removal. *)
Definition middle_step (nnsize : Z) (st : Parts) (term : nat * list str)
  : result Parts :=
  let '(termsize, termparts) := term in
  let k := Z.of_nat termsize in
  if (1 <? k)%Z then
    let sizediff := (nnsize - k)%Z in
    if (1 <? sizediff)%Z
    then Ok (fold_left (middle_at k termparts) (range0 (nnsize - k + 1)) st)
    else Ok st
  else
    x <- py_index termparts 0 ;;
    match index_of x (slice (fst st) 1 (-1)) with
    | Some idx =>
        nnparts <- del_index (fst st) (Z.of_nat idx + 1) ;;
        nparts <- del_index (snd st) (Z.of_nat idx + 1) ;;
        Ok (nnparts, nparts)
    | None => Ok st
    end.

Definition custom_basename_old {U : Unicode} (name : str)
  (terms : list (nat * list str)) (f : Flags) : result str :=
  let name := strip_tail name in
  let nparts := split name in
  let nname := normalized name in
  let nnparts := map strip_punct (split nname) in
  let nnsize := Z.of_nat (length nnparts) in
  let st := (nnparts, nparts) in
  let st := if suffix f then fold_left suffix_step terms st else st in
  let st := if prefix f then fold_left prefix_step terms st else st in
  st <- (if middle f then fold_result (middle_step nnsize) terms st
         else Ok st) ;;
  Ok (strip_tail (join [space] (snd st))).

(** Lines 204-206: the two partial applications; the default catalog is
    computed once, when the module is loaded. *)
Definition basename_old {U : Unicode}
  (terms_by_type terms_by_country : list (str * list str))
  (NON_NFKD_MAP : char -> option str) (name : str) (f : Flags)
  : result str :=
  custom_basename_old name
    (prepare_default_terms terms_by_type terms_by_country NON_NFKD_MAP) f.

Definition basename {U : Unicode}
  (terms_by_type terms_by_country : list (str * list str))
  (NON_NFKD_MAP : char -> option str) (global_automaton : State)
  (name : str) (f : Flags) : State * result str :=
  custom_basename global_automaton name
    (prepare_default_terms terms_by_type terms_by_country NON_NFKD_MAP) f.

(** The character is one of [.], [,] and [-]. *)
Definition is_punct (c : char) : bool :=
  N.eqb c dot || N.eqb c comma || N.eqb c hyphen.

(** The character is in the range of [TRANSLATION_TABLE]. *)
Definition in_table (c : char) : bool :=
  ((0x80 <=? c) && (c <? 0x10ffff))%N.

(** A term that the middle loop can handle: one that goes to the branch
    of line 117 has a first token. *)
Definition middle_safe (term : nat * list str) : bool :=
  (1 <? fst term) || match snd term with [] => false | _ :: _ => true end.

(** The normalized tokens never outnumber the tokens of the name. *)
Definition parts_ok (st : Parts) : Prop :=
  length (fst st) <= length (snd st).

(** * Properties *)

(** ** Sequence primitives *)

Lemma py_index_in_range {A} (l : list A) (i : Z) (d : A) :
  (0 <= i < Z.of_nat (length l))%Z ->
  py_index l i = Ok (nth (Z.to_nat i) l d).
Proof.
  intros Hi. unfold py_index.
  destruct (Z.ltb_spec i 0); [lia|].
  destruct (Z.ltb_spec i 0); [lia|].
  assert (Hn : (Z.to_nat i < length l)%nat) by lia.
  destruct (nth_error l (Z.to_nat i)) eqn:E.
  - f_equal. symmetry. now apply nth_error_nth.
  - apply nth_error_None in E. lia.
Qed.

Lemma str_eqb_eq (a b : str) : str_eqb a b = true <-> a = b.
Proof.
  unfold str_eqb. destruct (str_eq_dec a b); split; congruence.
Qed.

Lemma str_eqb_refl (a : str) : str_eqb a a = true.
Proof. now apply str_eqb_eq. Qed.

Lemma assoc_get_In {V} (key : str) (l : list (str * V)) (v : V) :
  assoc_get key l = Some v -> In (key, v) l.
Proof.
  induction l as [|[k w] l IH]; simpl; [discriminate|].
  destruct (str_eqb k key) eqn:E.
  - apply str_eqb_eq in E. intros [= ->]. left. now subst.
  - intros H. right. now apply IH.
Qed.

Lemma assoc_set_In {V} (key : str) (v : V) (l : list (str * V)) k w :
  In (k, w) (assoc_set key v l) -> In (k, w) l \/ (k = key /\ w = v).
Proof.
  induction l as [|[k' w'] l IH]; simpl.
  - intros [[= <- <-]|[]]. now right.
  - destruct (str_eqb k' key) eqn:E; simpl.
    + apply str_eqb_eq in E. subst k'.
      intros [[= <- <-]|H]; [now right | left; now right].
    + intros [H|H]; [left; now left|].
      destruct (IH H) as [H'|H']; [left; now right | now right].
Qed.

(** ** Well-formed automata: what [build_automaton] produces *)

Lemma add_word_wf (a : Automaton) (key : str) (idx : nat) :
  wf_automaton a -> wf_automaton (add_word a key (idx, key)).
Proof.
  intros Ha. unfold add_word. destruct key as [|c key]; [exact Ha|].
  intros k v Hin. simpl in Hin.
  apply assoc_set_In in Hin. destruct Hin as [Hin|[-> ->]].
  - now apply Ha.
  - simpl. split; [reflexivity | discriminate].
Qed.

Lemma make_automaton_words (a : Automaton) :
  words (make_automaton a) = words a.
Proof. unfold make_automaton. now destruct (kind a). Qed.

Lemma build_automaton_wf (terms : list (nat * list str)) :
  wf_automaton (build_automaton terms).
Proof.
  unfold build_automaton.
  assert (H : forall l a, wf_automaton a ->
    wf_automaton (fold_left add_term l a)).
  { induction l as [|[idx [n t]] l IH]; simpl; intros a Ha; [exact Ha|].
    apply IH. now apply add_word_wf. }
  intros k v Hin. rewrite make_automaton_words in Hin.
  revert k v Hin. apply H. intros k v [].
Qed.


Lemma substring_length (s : str) (b e : nat) :
  b <= e -> e < length s -> length (substring s b e) = S e - b.
Proof.
  intros Hb He. unfold substring.
  rewrite length_firstn, length_skipn. lia.
Qed.

Lemma enumerate_snd {A} (l : list A) : map snd (enumerate l) = l.
Proof.
  unfold enumerate. generalize 0.
  induction l as [|x l IH]; intros k; simpl; [reflexivity|].
  now rewrite IH.
Qed.

Lemma fold_add_term_kind (l : list (nat * (nat * list str))) (a : Automaton) :
  kind a <> AHOCORASICK ->
  kind (fold_left add_term l a) <> AHOCORASICK
  /\ (kind (fold_left add_term l a) = TRIE
      <-> kind a = TRIE
          \/ exists it, In it l /\ join [space] (snd (snd it)) <> []).
Proof.
  revert a. induction l as [|[idx [n tp]] l IH]; intros a Ha; simpl.
  - split; [exact Ha|]. split; [now left|].
    intros [H|[it [[] _]]]. exact H.
  - assert (Hk : kind (add_term a (idx, (n, tp))) <> AHOCORASICK).
    { unfold add_term, add_word.
      destruct (join [space] tp); [exact Ha | discriminate]. }
    destruct (IH _ Hk) as [H1 H2]. split; [exact H1|].
    rewrite H2. unfold add_term, add_word.
    destruct (join [space] tp) as [|c key] eqn:Ej; simpl.
    + split.
      * intros [H|[it [Hit Hne]]]; [now left|].
        right. exists it. split; [now right | exact Hne].
      * intros [H|[it [[<-|Hit] Hne]]]; [now left | | ].
        -- simpl in Hne. congruence.
        -- right. exists it. now split.
    + split; [|now left]. intros _. right.
      exists (idx, (n, tp)). split; [now left|]. simpl. rewrite Ej.
      discriminate.
Qed.

(** A built catalog: [build_automaton] ends with an automaton that [iter]
    accepts exactly when some term of the catalog joins to a word that is
    not empty. *)
Lemma build_automaton_kind (terms : list (nat * list str)) :
  kind (build_automaton terms) = AHOCORASICK
  <-> exists e, In e terms /\ join [space] (snd e) <> [].
Proof.
  unfold build_automaton.
  destruct (fold_add_term_kind (enumerate terms) new_automaton)
    as [H1 H2]; [discriminate|].
  assert (Hex : (exists it, In it (enumerate terms)
                            /\ join [space] (snd (snd it)) <> [])
                <-> exists e, In e terms /\ join [space] (snd e) <> []).
  { split.
    - intros [[i e] [Hin Hne]]. exists e. split; [|exact Hne].
      rewrite <- (enumerate_snd terms). now apply (in_map snd) in Hin.
    - intros [e [Hin Hne]]. rewrite <- (enumerate_snd terms) in Hin.
      apply in_map_iff in Hin. destruct Hin as [it [<- Hin]]. eauto. }
  rewrite <- Hex. unfold make_automaton.
  destruct (kind (fold_left add_term (enumerate terms) new_automaton)) eqn:Ek;
    simpl.
  - rewrite Ek. split; [discriminate|]. intros H.
    assert (EMPTY = TRIE); [|discriminate].
    apply H2. now right.
  - split; [|reflexivity]. intros _.
    destruct (proj1 H2 eq_refl) as [H|H]; [discriminate | exact H].
  - congruence.
Qed.

Lemma iter_genuine (a : Automaton) (nname : str) occ :
  wf_automaton a -> iter a nname = Ok occ -> Forall (genuine nname) occ.
Proof.
  intros Ha. unfold iter. destruct (kind a); try discriminate.
  intros [= <-]. apply Forall_forall. intros [e [p m]] Hin.
  apply in_flat_map in Hin. destruct Hin as [e' [He' Hin]].
  apply in_seq in He'.
  unfold matches_ending_at in Hin. apply in_flat_map in Hin.
  destruct Hin as [b [Hb Hin]]. apply in_seq in Hb.
  destruct (assoc_get (substring nname b e') (words a)) as [v|] eqn:E;
    [|destruct Hin].
  destruct v as [p' m'].
  destruct Hin as [[= <- <- <-]|[]].
  apply assoc_get_In in E. apply Ha in E. simpl in E. destruct E as [-> Hne].
  assert (Hlen : length (substring nname b e') = S e' - b)
    by (apply substring_length; lia).
  unfold genuine. rewrite Hlen.
  replace (Z.of_nat e' - Z.of_nat (S e' - b) + 1)%Z with (Z.of_nat b) by lia.
  rewrite !Nat2Z.id. repeat split; try lia. exact Hne.
Qed.

(** ** The boundary filter (lines 166-177) *)

Section Filter.

Context {U : Unicode}.

(** Within the text the two index expressions stay in range, and the
    conditions are those of the specification with the flags applied to
    the right-hand one. *)
Lemma accept_eval (nname : str) (f : Flags) (start_idx end_idx : Z) :
  (0 <= start_idx <= end_idx)%Z ->
  (end_idx < Z.of_nat (length nname))%Z ->
  accept nname f start_idx end_idx
  = Ok (spec_left_ok nname start_idx
        && cond_2_flags f (Z.of_nat (length nname)) start_idx end_idx
             (spec_right_boundary nname end_idx)).
Proof.
  intros Hs He. unfold accept, cond_1, cond_2_boundary.
  rewrite (py_index_in_range nname _ 0%N) by lia. simpl.
  assert (H1 : negb (isalnum (nth (Z.to_nat (Z.max 0 (start_idx - 1))) nname 0%N))
               || (start_idx =? 0)%Z
               = spec_left_ok nname start_idx).
  { unfold spec_left_ok, char_at.
    destruct (Z.eqb_spec start_idx 0) as [->|Hne].
    - now rewrite orb_true_r.
    - rewrite orb_false_r. simpl. now rewrite Z.max_r by lia. }
  rewrite H1. unfold spec_right_boundary.
  destruct (Z.eqb_spec end_idx (Z.of_nat (length nname) - 1)) as [Heq|Hne].
  - reflexivity.
  - rewrite (py_index_in_range nname _ 0%N) by lia. simpl.
    rewrite Z.min_r by lia. reflexivity.
Qed.

Lemma genuine_bounds (nname : str) (e : Z) (p : nat) (m : str) :
  genuine nname (e, (p, m)) ->
  (0 <= e - Z.of_nat (length m) + 1 <= e)%Z
  /\ (e < Z.of_nat (length nname))%Z.
Proof.
  unfold genuine. intros (Hne & Hs & He & _).
  destruct m; [congruence|]. simpl length in *. lia.
Qed.

End Filter.

Section FilterClaims.

Context {U : Unicode}.

(** C1 (amended).  With [middle] disabled a candidate inside the text is
    accepted if and only if [left_ok] holds, the match ends the text or is
    followed by a non-alphanumeric character, and it is anchored at an
    end of the text whose flag is enabled. *)
Theorem accept_no_middle (nname : str) (f : Flags) (start_idx end_idx : Z) :
  middle f = false ->
  (0 <= start_idx <= end_idx)%Z ->
  (end_idx < Z.of_nat (length nname))%Z ->
  accept nname f start_idx end_idx
  = Ok (spec_left_ok nname start_idx
        && (spec_right_boundary nname end_idx
            && spec_anchored nname f start_idx end_idx)).
Proof.
  intros Hm Hs He. rewrite accept_eval by assumption.
  unfold cond_2_flags, spec_anchored. now rewrite Hm.
Qed.




End FilterClaims.

(** C1, as stated, fails: the prefix [inc] of [incorporated] touches the
    start of the text with [prefix] enabled, yet it is refused, because
    the character after it is alphanumeric. *)
Lemma accept_no_middle_counterexample :
  accept (py "incorporated")
    {| suffix := false; prefix := true; middle := false |} 0 2 = Ok false
  /\ spec_accept_no_middle (py "incorporated")
       {| suffix := false; prefix := true; middle := false |} 0 2 = true.
Proof. split; reflexivity. Qed.

(** The amended rule at [inc acme], [inc] as prefix *)
Lemma accept_no_middle_witness :
  accept (py "inc acme")
    {| suffix := false; prefix := true; middle := false |} 0 2
  = Ok (spec_left_ok (py "inc acme") 0
        && (spec_right_boundary (py "inc acme") 2
            && spec_anchored (py "inc acme")
                 {| suffix := false; prefix := true; middle := false |} 0 2)).
Proof.
  apply accept_no_middle; [reflexivity | lia | simpl; lia].
Defined.

(** ** The cached automaton and the short cut of line 180 *)

Section Requests.

Context {U : Unicode}.

Lemma strip_tail_rev_idem (r : str) :
  strip_tail_rev (strip_tail_rev r) = strip_tail_rev r.
Proof.
  induction r as [|c r IH]; simpl; [reflexivity|].
  destruct (negb (isalnum c) && negb (N.eqb c dot)) eqn:E; [exact IH|].
  simpl. now rewrite E.
Qed.

Lemma strip_tail_idem (name : str) :
  strip_tail (strip_tail name) = strip_tail name.
Proof.
  unfold strip_tail. now rewrite rev_involutive, strip_tail_rev_idem.
Qed.

Lemma clean_accepted (a : Automaton) (name : str) (f : Flags) :
  clean a name f
  = (matches <- accepted_matches a name f ;;
     if length matches =? 0 then Ok (strip_tail name)
     else
       char_array <- pop_all (length matches) matches
                       (normalized (strip_punct (strip_tail name))) ;;
       final <- build_final (split (strip_tail name)) 0
                  (reinsert (non_alphanum (split (strip_tail name)))
                     (split char_array)) ;;
       Ok (strip_tail (join [space] final))).
Proof.
  unfold clean, accepted_matches.
  destruct (iter a (normalized (strip_punct (strip_tail name)))); reflexivity.
Qed.

Lemma clean_no_match (a : Automaton) (name : str) (f : Flags) :
  accepted_matches a name f = Ok [] -> clean a name f = Ok (strip_tail name).
Proof. intros H. rewrite clean_accepted, H. reflexivity. Qed.

(** Whatever [clean] returns has no tail left to strip. *)
Lemma clean_stripped (a : Automaton) (name : str) (f : Flags) (out : str) :
  clean a name f = Ok out -> strip_tail out = out.
Proof.
  rewrite clean_accepted.
  destruct (accepted_matches a name f) as [matches|]; simpl; [|discriminate].
  destruct (length matches =? 0).
  - intros [= <-]. apply strip_tail_idem.
  - destruct (pop_all _ _ _) as [buf|]; simpl; [|discriminate].
    destruct (build_final _ _ _) as [final|]; simpl; [|discriminate].
    intros [= <-]. apply strip_tail_idem.
Qed.

Lemma reachable_wf (st : State) (terms : list (nat * list str)) :
  reachable st -> wf_automaton (effective st terms).
Proof. intros [|terms0]; simpl; apply build_automaton_wf. Qed.

(** C6.  The first call of a process builds the automaton from its own
    catalog; a call that finds an automaton keeps it and answers from it,
    whatever catalog it is given; so every call of a run is answered by
    the automaton of the catalog of the first call. *)
Theorem automaton_built_once :
  (forall name terms f,
      custom_basename None name terms f
      = (Some (build_automaton terms), clean (build_automaton terms) name f))
  /\ (forall a name terms f,
         custom_basename (Some a) name terms f = (Some a, clean a name f))
  /\ (forall c cs,
         run None (c :: cs)
         = (Some (build_automaton (c_terms c)),
            map (fun d => clean (build_automaton (c_terms c))
                            (c_name d) (c_flags d)) (c :: cs))).
Proof.
  split; [reflexivity|]. split; [reflexivity|].
  assert (H : forall a cs,
             run (Some a) cs
             = (Some a, map (fun d => clean a (c_name d) (c_flags d)) cs)).
  { intros a cs. induction cs as [|d cs IH]; simpl; [reflexivity|].
    now rewrite IH. }
  intros c cs. simpl. now rewrite H.
Qed.




(** C2 (amended).  A second pass returns the result of the first
    unchanged whenever it accepts no match in it. *)
Theorem second_pass_fixed (st : State) (x : str)
  (terms : list (nat * list str)) (f : Flags) (y : str) :
  snd (custom_basename st x terms f) = Ok y ->
  accepted_matches (effective st terms) y f = Ok [] ->
  snd (custom_basename (fst (custom_basename st x terms f)) y terms f)
  = Ok y.
Proof.
  simpl. intros H1 H2. rewrite (clean_no_match _ _ _ H2).
  f_equal. eapply clean_stripped. exact H1.
Qed.

End Requests.

(** The first call of a process with the empty catalog: the store of
    [build_automaton] holds no word, and [iter] refuses it. *)
Lemma empty_catalog_first_call {U : Unicode} (name : str) (f : Flags) :
  custom_basename None name [] f
  = (Some new_automaton, Raise AttributeError).
Proof. reflexivity. Qed.



(** C2, as stated, fails: [Co] is interior in the input, becomes the
    suffix of the first result, and goes in the second pass. *)
Lemma idempotence_counterexample :
  snd (custom_basename None (py "Acme Co Ltd")
         [(1, [py "co"]); (1, [py "ltd"])] default_flags)
  = Ok (py "Acme Co")
  /\ snd (custom_basename
            (fst (custom_basename None (py "Acme Co Ltd")
                    [(1, [py "co"]); (1, [py "ltd"])] default_flags))
            (py "Acme Co") [(1, [py "co"]); (1, [py "ltd"])] default_flags)
     = Ok (py "Acme").
Proof. split; reflexivity. Qed.

(** [Acme Ltd.] gives [Acme], which a second pass leaves alone. *)
Lemma second_pass_fixed_witness :
  snd (custom_basename
         (fst (custom_basename None (py "Acme Ltd.")
                 [(1, [py "ltd"])] default_flags))
         (py "Acme") [(1, [py "ltd"])] default_flags)
  = Ok (py "Acme").
Proof.
  apply (second_pass_fixed None (py "Acme Ltd.") [(1, [py "ltd"])]
           default_flags (py "Acme")); reflexivity.
Defined.



(** ** Overlap resolution (lines 183-190) *)

Lemma insert_sorted_perm {A} (leb : A -> A -> bool) (x : A) (l : list A) :
  Permutation (insert_sorted leb x l) (x :: l).
Proof.
  induction l as [|y l IH]; simpl; [reflexivity|].
  destruct (leb x y); [reflexivity|].
  rewrite IH. apply perm_swap.
Qed.

Lemma slice_assign_inside {A} (l xs : list A) (s e : Z) :
  (0 <= s <= e)%Z -> (e < Z.of_nat (length l))%Z ->
  slice_assign l s (e + 1) xs
  = firstn (Z.to_nat s) l ++ xs ++ skipn (S (Z.to_nat e)) l.
Proof.
  intros Hs He. unfold slice_assign, clamp.
  destruct (Z.ltb_spec s 0); [lia|].
  destruct (Z.ltb_spec (e + 1) 0); [lia|].
  rewrite (Z.min_l s) by lia. rewrite (Z.min_l (e + 1)) by lia.
  rewrite Z.max_r by lia.
  replace (Z.to_nat (e + 1)) with (S (Z.to_nat e)) by lia.
  reflexivity.
Qed.

Lemma mark_from_app (i : nat) (ms : list entry) (a b : str) :
  mark_from i ms (a ++ b)
  = mark_from i ms a ++ mark_from (i + length a) ms b.
Proof.
  revert i. induction a as [|c a IH]; intros i; simpl.
  - now rewrite Nat.add_0_r.
  - rewrite IH. now replace (S i + length a) with (i + S (length a)) by lia.
Qed.

Lemma mark_from_length (i : nat) (ms : list entry) (s : str) :
  length (mark_from i ms s) = length s.
Proof. revert i. induction s; intros i; simpl; auto. Qed.

Lemma mark_from_ext (i : nat) (ms ms' : list entry) (s : str) :
  (forall j, i <= j < i + length s ->
             existsb (in_span j) ms = existsb (in_span j) ms') ->
  mark_from i ms s = mark_from i ms' s.
Proof.
  revert i. induction s as [|c s IH]; intros i H; simpl; [reflexivity|].
  rewrite (H i) by (simpl; lia). f_equal.
  apply IH. intros j Hj. apply H. simpl. lia.
Qed.

Lemma mark_from_covered (i : nat) (ms : list entry) (s : str) :
  (forall j, i <= j < i + length s -> existsb (in_span j) ms = true) ->
  mark_from i ms s = mark s.
Proof.
  revert i. induction s as [|c s IH]; intros i H; simpl; [reflexivity|].
  rewrite (H i) by (simpl; lia). f_equal.
  apply IH. intros j Hj. apply H. simpl. lia.
Qed.

Lemma mark_union_nil (nname : str) : mark_union nname [] = nname.
Proof.
  unfold mark_union. generalize 0.
  induction nname as [|c s IH]; intros i; simpl; [reflexivity|].
  now rewrite IH.
Qed.

(** The text splits around a span that lies inside it. *)
Lemma split_around (nname : str) (s e : nat) :
  s <= e -> e < length nname ->
  nname = firstn s nname ++ substring nname s e ++ skipn (S e) nname.
Proof.
  intros Hs He. unfold substring.
  rewrite <- (firstn_skipn s nname) at 1. f_equal.
  rewrite <- (firstn_skipn (S e - s) (skipn s nname)) at 1. f_equal.
  rewrite skipn_skipn. f_equal. lia.
Qed.

(** One overwrite adds one span to the union. *)
Lemma apply_match_union (nname : str) (done : list entry) (x : entry) :
  genuine_entry nname x ->
  apply_match (mark_union nname done) x = mark_union nname (x :: done).
Proof.
  destruct x as [p [[s e] m]]. intros [Hst Hg].
  pose proof (genuine_bounds nname e p m Hg) as [Hb He].
  destruct Hg as (Hne & _ & _ & Hm). rewrite <- Hst in Hb, Hm.
  set (s' := Z.to_nat s) in *. set (e' := Z.to_nat e) in *.
  assert (Hs' : s' <= e') by lia.
  assert (He' : e' < length nname) by lia.
  unfold apply_match.
  rewrite slice_assign_inside by (unfold mark_union; rewrite ?mark_from_length; lia).
  fold s' e'. unfold mark_union.
  pose proof (split_around nname s' e' Hs' He') as Hsplit.
  rewrite <- Hm in Hsplit.
  set (A := firstn s' nname) in *. set (B := skipn (S e') nname) in *.
  assert (HA : length A = s') by (unfold A; rewrite length_firstn; lia).
  assert (HM : length m = S e' - s').
  { rewrite Hm. apply substring_length; lia. }
  rewrite Hsplit. rewrite !mark_from_app, !Nat.add_0_l.
  rewrite HA, HM. replace (s' + (S e' - s')) with (S e') by lia.
  rewrite firstn_app, skipn_app, skipn_app.
  rewrite !mark_from_length, HA, HM.
  replace (s' - s') with 0 by lia.
  replace (S e' - s' - (S e' - s')) with 0 by lia.
  rewrite firstn_all2 by (rewrite mark_from_length; lia).
  rewrite (skipn_all2 (mark_from 0 done A)) by (rewrite mark_from_length; lia).
  rewrite (skipn_all2 (mark_from s' done m)) by (rewrite mark_from_length; lia).
  rewrite firstn_0, skipn_O, app_nil_r. cbn [app].
  f_equal; [|f_equal].
  - apply mark_from_ext. intros j Hj. cbn [existsb].
    assert (in_span j (p, (s, e, m)) = false) as ->; [|reflexivity].
    unfold in_span. apply andb_false_iff. left. apply Z.leb_gt. lia.
  - symmetry. apply mark_from_covered. intros j Hj. cbn [existsb].
    assert (in_span j (p, (s, e, m)) = true) as ->; [|reflexivity].
    unfold in_span. apply andb_true_iff. split; apply Z.leb_le; lia.
  - apply mark_from_ext. intros j Hj. cbn [existsb].
    assert (in_span j (p, (s, e, m)) = false) as ->; [|reflexivity].
    unfold in_span. apply andb_false_iff. right. apply Z.leb_gt. lia.
Qed.

Lemma existsb_perm {A} (g : A -> bool) (l l' : list A) :
  Permutation l l' -> existsb g l = existsb g l'.
Proof.
  induction 1; simpl; try congruence.
  - now rewrite !orb_assoc, (orb_comm (g y)).
Qed.

Lemma mark_union_perm (nname : str) (ms ms' : list entry) :
  Permutation ms ms' -> mark_union nname ms = mark_union nname ms'.
Proof.
  intros H. apply mark_from_ext. intros j _. now apply existsb_perm.
Qed.

Lemma apply_all_union (nname : str) (ms done : list entry) :
  Forall (genuine_entry nname) ms ->
  apply_all (mark_union nname done) ms = mark_union nname (done ++ ms).
Proof.
  intros H. unfold apply_all. revert done.
  induction H as [|x ms Hx _ IH]; intros done; simpl.
  - now rewrite app_nil_r.
  - rewrite apply_match_union by assumption.
    rewrite IH. apply mark_union_perm.
    apply Permutation_middle.
Qed.

Lemma pop_all_apply_all (ms : list entry) (buf : str) :
  pop_all (length ms) ms buf = Ok (apply_all buf ms).
Proof.
  revert buf. induction ms as [|x ms IH]; intros buf; simpl; [reflexivity|].
  apply IH.
Qed.

Section Resolution.

Context {U : Unicode}.

Lemma collect_matches_genuine (nname : str) (f : Flags) occ matches :
  Forall (genuine nname) occ ->
  Forall (genuine_entry nname) matches ->
  exists ms, collect_matches nname f occ matches = Ok ms
             /\ Forall (genuine_entry nname) ms.
Proof.
  intros Hocc. revert matches.
  induction Hocc as [|[e [p m]] occ Hg _ IH]; intros matches Hms; simpl.
  - eauto.
  - pose proof (genuine_bounds nname e p m Hg) as [Hb He].
    rewrite accept_eval by assumption. simpl.
    apply IH. destruct (_ && _); [|exact Hms].
    unfold heappush.
    eapply Permutation_Forall;
      [symmetry; apply insert_sorted_perm|].
    constructor; [|exact Hms]. split; [reflexivity | exact Hg].
Qed.

Lemma accepted_matches_genuine (a : Automaton) (name : str) (f : Flags) ms :
  wf_automaton a ->
  accepted_matches a name f = Ok ms ->
  Forall (genuine_entry (normalized (strip_punct (strip_tail name)))) ms.
Proof.
  intros Ha. unfold accepted_matches.
  destruct (iter a _) as [occ|] eqn:E; simpl; [|discriminate].
  intros H.
  destruct (collect_matches_genuine _ f occ []
              (iter_genuine _ _ _ Ha E) (Forall_nil _)) as (ms' & H' & Hg).
  congruence.
Qed.

(** C4.  The buffer that the loop of [heappop] leaves is the text with
    the union of the accepted spans turned into periods, spaces kept;
    applying the accepted matches in any other order gives the same
    buffer. *)
Theorem overlap_resolution_union (st : State) (name : str)
  (terms : list (nat * list str)) (f : Flags) (matches order : list entry) :
  reachable st ->
  accepted_matches (effective st terms) name f = Ok matches ->
  Permutation matches order ->
  pop_all (length matches) matches
    (normalized (strip_punct (strip_tail name)))
  = Ok (mark_union (normalized (strip_punct (strip_tail name))) matches)
  /\ apply_all (normalized (strip_punct (strip_tail name))) order
     = mark_union (normalized (strip_punct (strip_tail name))) matches.
Proof.
  intros Hst Hacc Hperm.
  pose proof (accepted_matches_genuine _ _ _ _
                (reachable_wf st terms Hst) Hacc) as Hg.
  set (nname := normalized (strip_punct (strip_tail name))) in *.
  split.
  - rewrite pop_all_apply_all. f_equal.
    rewrite <- (mark_union_nil nname) at 1.
    now rewrite apply_all_union.
  - rewrite <- (mark_union_nil nname) at 1.
    rewrite apply_all_union by (eapply Permutation_Forall; eassumption).
    simpl. symmetry. now apply mark_union_perm.
Qed.

End Resolution.

(** [company] inside [holding company]: both accepted, applied in the
    order opposite to that of the heap *)
Lemma overlap_resolution_union_witness :
  apply_all (py "acme holding company")
    [(1, (13%Z, 19%Z, py "company")); (0, (5%Z, 19%Z, py "holding company"))]
  = py "acme ....... .......".
Proof.
  exact (proj2 (overlap_resolution_union None (py "Acme Holding Company")
                  [(2, [py "holding"; py "company"]); (1, [py "company"])]
                  default_flags
                  [(0, (5%Z, 19%Z, py "holding company"));
                   (1, (13%Z, 19%Z, py "company"))]
                  [(1, (13%Z, 19%Z, py "company"));
                   (0, (5%Z, 19%Z, py "holding company"))]
                  reach_init eq_refl (perm_swap _ _ _))).
Defined.

(** ** The term catalog (lines 76-83 and 126-133) *)

Lemma N_compare_trans (x y z : N) (c : comparison) :
  N.compare x y = c -> N.compare y z = c -> N.compare x z = c.
Proof.
  destruct c; intros H1 H2.
  - apply N.compare_eq_iff in H1, H2. apply N.compare_eq_iff. congruence.
  - rewrite N.compare_lt_iff in *. lia.
  - rewrite N.compare_gt_iff in *. lia.
Qed.

Lemma str_compare_eq (a b : str) : str_compare a b = Eq <-> a = b.
Proof. apply list_compare_refl. apply N.compare_eq_iff. Qed.

Lemma str_compare_antisym (a b : str) :
  str_compare b a = CompOpp (str_compare a b).
Proof.
  apply list_compare_antisym.
  - apply N.compare_eq_iff.
  - intros x y. apply N.compare_antisym.
Qed.

Lemma str_compare_trans (a b c : str) (r : comparison) :
  str_compare a b = r -> str_compare b c = r -> str_compare a c = r.
Proof.
  apply list_compare_trans.
  - apply N.compare_eq_iff.
  - apply N_compare_trans.
  - intros x y. apply N.compare_antisym.
Qed.

Lemma tokens_compare_eq (a b : list str) : tokens_compare a b = Eq <-> a = b.
Proof. apply list_compare_refl. apply str_compare_eq. Qed.

Lemma tokens_compare_antisym (a b : list str) :
  tokens_compare b a = CompOpp (tokens_compare a b).
Proof.
  apply list_compare_antisym.
  - apply str_compare_eq.
  - apply str_compare_antisym.
Qed.

Lemma tokens_compare_trans (a b c : list str) (r : comparison) :
  tokens_compare a b = r -> tokens_compare b c = r -> tokens_compare a c = r.
Proof.
  apply list_compare_trans.
  - apply str_compare_eq.
  - apply str_compare_trans.
  - apply str_compare_antisym.
Qed.

Lemma key_leb_outranks (x y : list str) :
  key_leb x y = true <-> outranks x y.
Proof.
  unfold key_leb, outranks.
  destruct (Z.compare_spec (- Z.of_nat (length x)) (- Z.of_nat (length y)))
    as [H|H|H].
  - destruct (tokens_compare x y); split; intros H'; try discriminate;
      try (right; split; [lia | discriminate]); try reflexivity.
    destruct H' as [H'|[_ H']]; [lia | congruence].
  - split; [left; lia | reflexivity].
  - split; [discriminate | intros [H'|[H' _]]; lia].
Qed.

Lemma outranks_total (x y : list str) : outranks x y \/ outranks y x.
Proof.
  unfold outranks.
  destruct (Nat.lt_trichotomy (length x) (length y)) as [H|[H|H]];
    [right; now left | | left; now left].
  pose proof (tokens_compare_antisym x y) as Ha.
  destruct (tokens_compare x y) eqn:E.
  - left. right. split; [exact H | discriminate].
  - left. right. split; [exact H | discriminate].
  - right. right. split; [now symmetry|]. rewrite Ha. discriminate.
Qed.

Lemma outranks_trans (x y z : list str) :
  outranks x y -> outranks y z -> outranks x z.
Proof.
  unfold outranks. intros [H1|[H1 C1]] [H2|[H2 C2]]; try (left; lia).
  right. split; [lia|].
  destruct (tokens_compare x y) eqn:E1; [| |congruence].
  - apply tokens_compare_eq in E1. now subst.
  - destruct (tokens_compare y z) eqn:E2; [| |congruence].
    + apply tokens_compare_eq in E2. subst. rewrite E1. discriminate.
    + rewrite (tokens_compare_trans x y z Lt E1 E2). discriminate.
Qed.

Lemma outranks_antisym (x y : list str) :
  outranks x y -> outranks y x -> x = y.
Proof.
  unfold outranks. intros [H1|[H1 C1]] [H2|[H2 C2]]; try lia.
  apply tokens_compare_eq.
  rewrite (tokens_compare_antisym x y) in C2.
  destruct (tokens_compare x y); simpl in *; congruence.
Qed.

Lemma sorted_perm {A} (leb : A -> A -> bool) (l : list A) :
  Permutation (sorted leb l) l.
Proof.
  induction l as [|x l IH]; simpl; [reflexivity|].
  rewrite insert_sorted_perm. now constructor.
Qed.

Lemma insert_key_sorted (x : list str) (l : list (list str)) :
  StronglySorted outranks l ->
  StronglySorted outranks (insert_sorted key_leb x l).
Proof.
  induction 1 as [|y l Hl IH Hy]; simpl.
  - repeat constructor.
  - destruct (key_leb x y) eqn:E.
    + apply key_leb_outranks in E.
      constructor; [now constructor|].
      constructor; [exact E|].
      eapply Forall_impl; [|exact Hy].
      intros z Hz. eapply outranks_trans; eassumption.
    + assert (Hyx : outranks y x).
      { destruct (outranks_total x y) as [H|H]; [|exact H].
        apply key_leb_outranks in H. congruence. }
      constructor; [exact IH|].
      eapply Permutation_Forall;
        [symmetry; apply insert_sorted_perm|].
      now constructor.
Qed.

Lemma sorted_key_sorted (l : list (list str)) :
  StronglySorted outranks (sorted key_leb l).
Proof.
  induction l as [|x l IH]; simpl; [constructor|].
  now apply insert_key_sorted.
Qed.

(** Two sorted arrangements of the same terms are the same list. *)
Lemma sorted_unique (l l' : list (list str)) :
  StronglySorted outranks l -> StronglySorted outranks l' ->
  Permutation l l' -> l = l'.
Proof.
  intros Hl. revert l'. induction Hl as [|x l Hl IH Hx]; intros l' Hl' Hp.
  - apply Permutation_nil in Hp. now subst.
  - destruct Hl' as [|y l' Hl' Hy].
    + symmetry in Hp. apply Permutation_nil in Hp. discriminate.
    + assert (Hxy : x = y).
      { assert (Hin1 : In x (y :: l')).
        { eapply Permutation_in; [exact Hp | now left]. }
        assert (Hin2 : In y (x :: l)).
        { eapply Permutation_in; [symmetry; exact Hp | now left]. }
        destruct Hin1 as [->|Hin1]; [reflexivity|].
        destruct Hin2 as [->|Hin2]; [reflexivity|].
        rewrite Forall_forall in Hx, Hy.
        apply outranks_antisym; auto. }
      subst y. f_equal. apply IH; [exact Hl'|].
      eapply Permutation_cons_inv. exact Hp.
Qed.

Lemma enumerate_from_nth {A} (l : list A) (k i : nat) (x : A) :
  In (i, x) (combine (seq k (length l)) l) ->
  k <= i /\ nth_error l (i - k) = Some x.
Proof.
  revert k. induction l as [|y l IH]; intros k; simpl; [intros []|].
  intros [[= <- <-]|H].
  - split; [lia|]. now rewrite Nat.sub_diag.
  - apply IH in H. destruct H as [Hk H]. split; [lia|].
    replace (i - k) with (S (i - S k)) by lia. exact H.
Qed.

Lemma enumerate_nth {A} (l : list A) (i : nat) (x : A) :
  In (i, x) (enumerate l) -> nth_error l i = Some x.
Proof.
  intros H. apply enumerate_from_nth in H.
  now rewrite Nat.sub_0_r in H.
Qed.

Lemma build_automaton_indexed (cat : list (nat * list str)) :
  Forall (fun e => fst e = length (snd e)) cat ->
  Forall (indexed_by cat) (words (build_automaton cat)).
Proof.
  intros Hcat. unfold build_automaton. rewrite make_automaton_words.
  assert (H : forall l a,
             (forall it, In it l -> nth_error cat (fst it) = Some (snd it)) ->
             Forall (indexed_by cat) (words a) ->
             Forall (indexed_by cat) (words (fold_left add_term l a))).
  { induction l as [|[idx [n tp]] l IH]; intros a Hl Ha; simpl; [exact Ha|].
    apply IH; [intros it Hit; apply Hl; now right|].
    unfold add_term, add_word.
    destruct (join [space] tp) as [|c key] eqn:Ej; [exact Ha|].
    simpl. apply Forall_forall. intros [k [i t]] Hin.
    apply assoc_set_In in Hin. destruct Hin as [Hin|[-> [= -> ->]]].
    - rewrite Forall_forall in Ha. now apply (Ha (k, (i, t))).
    - split; [reflexivity|]. exists tp. split; [|exact Ej].
      pose proof (Hl (idx, (n, tp)) (or_introl eq_refl)) as Hn.
      simpl in Hn. rewrite Hn. f_equal. f_equal.
      rewrite Forall_forall in Hcat.
      apply nth_error_In in Hn. apply (Hcat _ Hn). }
  apply H; [|constructor].
  intros [i x] Hin. now apply enumerate_nth.
Qed.

Section Catalog.

Context {U : Unicode}.

Lemma fold_left_app_concat {A} (vs : list (list A)) (acc : list A) :
  fold_left (fun acc v => acc ++ v) vs acc = acc ++ concat vs.
Proof.
  revert acc. induction vs as [|v vs IH]; intros acc; simpl.
  - now rewrite app_nil_r.
  - now rewrite IH, app_assoc.
Qed.

Lemma get_unique_terms_spec
  (terms_by_type terms_by_country : list (str * list str)) :
  NoDup (get_unique_terms terms_by_type terms_by_country)
  /\ forall t, In t (get_unique_terms terms_by_type terms_by_country)
               <-> In t (concat (map snd (terms_by_type ++ terms_by_country))).
Proof.
  unfold get_unique_terms. split; [apply NoDup_nodup|].
  intros t. rewrite nodup_In, !fold_left_app_concat. simpl.
  now rewrite map_app, concat_app.
Qed.

Lemma prepare_terms_snd (NON_NFKD_MAP : char -> option str)
  (terms : list str) :
  map snd (prepare_terms NON_NFKD_MAP terms)
  = sorted key_leb (map split (normalize_terms NON_NFKD_MAP terms)).
Proof.
  unfold prepare_terms. rewrite map_map. simpl. apply map_id.
Qed.

(** The order in which the set of raw terms is iterated does not show in
    the catalog. *)
Lemma prepare_terms_perm (NON_NFKD_MAP : char -> option str)
  (terms terms' : list str) :
  Permutation terms terms' ->
  prepare_terms NON_NFKD_MAP terms = prepare_terms NON_NFKD_MAP terms'.
Proof.
  intros Hp. unfold prepare_terms. f_equal.
  apply sorted_unique; try apply sorted_key_sorted.
  rewrite !sorted_perm. unfold normalize_terms.
  now do 2 apply Permutation_map.
Qed.

(** C3.  Whatever the order in which the deduplicated raw terms are
    taken, the catalog is the list of their token sequences (case-folded,
    accents removed, [.], [,] and [-] stripped, split at white space),
    each with its token count, sorted by [(-token_count, tokens)]: a term
    with more tokens comes before one with fewer, and among terms with as
    many tokens the lexicographically earlier comes first.  The priority
    index that [build_automaton] stores for a term is a position of that
    term in the catalog. *)
Theorem prepare_default_terms_sorted
  (terms_by_type terms_by_country : list (str * list str))
  (NON_NFKD_MAP : char -> option str) (order : list str) :
  Permutation (get_unique_terms terms_by_type terms_by_country) order ->
  prepare_terms NON_NFKD_MAP order
  = prepare_default_terms terms_by_type terms_by_country NON_NFKD_MAP
  /\ NoDup order
  /\ (forall t, In t order
                <-> In t (concat (map snd (terms_by_type ++ terms_by_country))))
  /\ Permutation
       (map snd (prepare_terms NON_NFKD_MAP order))
       (map (fun t => split (strip_punct (remove_accents NON_NFKD_MAP t)))
          order)
  /\ Forall (fun e => fst e = length (snd e))
       (prepare_terms NON_NFKD_MAP order)
  /\ StronglySorted outranks (map snd (prepare_terms NON_NFKD_MAP order))
  /\ Forall (indexed_by (prepare_terms NON_NFKD_MAP order))
       (words (build_automaton (prepare_terms NON_NFKD_MAP order))).
Proof.
  intros Hp.
  destruct (get_unique_terms_spec terms_by_type terms_by_country)
    as [Hnd Hin].
  assert (Hlen : Forall (fun e => fst e = length (snd e))
                   (prepare_terms NON_NFKD_MAP order)).
  { unfold prepare_terms. apply Forall_forall. intros e He.
    apply in_map_iff in He. destruct He as [tp [<- _]]. reflexivity. }
  repeat split.
  - symmetry. now apply prepare_terms_perm.
  - eapply Permutation_NoDup; eassumption.
  - intros H. apply Hin. eapply Permutation_in; [symmetry|]; eassumption.
  - intros H. eapply Permutation_in; [eassumption|]. now apply Hin.
  - rewrite prepare_terms_snd, sorted_perm.
    unfold normalize_terms. now rewrite map_map.
  - exact Hlen.
  - rewrite prepare_terms_snd. apply sorted_key_sorted.
  - now apply build_automaton_indexed.
Qed.

End Catalog.

(** A small catalog, its raw terms taken in reverse order *)
Lemma prepare_default_terms_sorted_witness :
  prepare_terms (fun _ => None)
    (rev (get_unique_terms
            [(py "Limited", [py "Ltd."; py "Limited"])]
            [(py "US", [py "Inc"; py "Ltd"; py "Holding Company"])]))
  = [(2, [py "holding"; py "company"]); (1, [py "inc"]);
     (1, [py "limited"]); (1, [py "ltd"]); (1, [py "ltd"])].
Proof.
  exact (eq_trans
           (proj1 (prepare_default_terms_sorted
                     [(py "Limited", [py "Ltd."; py "Limited"])]
                     [(py "US", [py "Inc"; py "Ltd"; py "Holding Company"])]
                     (fun _ => None) _ (Permutation_rev _)))
           eq_refl).
Defined.

(** ** Tokens under normalization *)

Section Tokens.

Context {U : Unicode} {L : UnicodeLaws U}.

Lemma split_from_nonspace (w cur s : str) :
  Forall (fun c => isspace c = false) w ->
  split_from cur (w ++ s) = split_from (cur ++ w) s.
Proof.
  intros Hw. revert cur. induction Hw as [|c w Hc _ IH]; intros cur; simpl.
  - now rewrite app_nil_r.
  - rewrite Hc, IH, <- app_assoc. reflexivity.
Qed.

Section CharLocal.

Variable g : char -> str.
Hypothesis g_space : forall c, isspace c = true -> g c = [c].
Hypothesis g_nonspace :
  forall c d, isspace c = false -> In d (g c) -> isspace d = false.

Lemma flush_flat_map (cur : str) :
  flush (flat_map g cur)
  = filter nonemptyb (map (flat_map g) (flush cur)).
Proof.
  destruct cur as [|c cur]; [reflexivity|].
  cbn [flush map filter]. destruct (flat_map g (c :: cur)); reflexivity.
Qed.

(** A character-local rewriting that maps separators to themselves and
    other characters to non-separators rewrites the tokens one by one;
    a token may vanish, none is merged or split. *)
Lemma split_from_flat_map (cur s : str) :
  split_from (flat_map g cur) (flat_map g s)
  = filter nonemptyb (map (flat_map g) (split_from cur s)).
Proof.
  revert cur. induction s as [|c s IH]; intros cur.
  - apply flush_flat_map.
  - cbn [flat_map split_from]. destruct (isspace c) eqn:Ec.
    + rewrite (g_space c Ec). cbn [app split_from]. rewrite Ec.
      rewrite map_app, filter_app, <- flush_flat_map.
      f_equal. apply (IH []).
    + rewrite split_from_nonspace
        by (apply Forall_forall; intros d Hd; eapply g_nonspace; eassumption).
      rewrite <- IH. f_equal.
      rewrite flat_map_app. cbn [flat_map]. now rewrite app_nil_r.
Qed.

End CharLocal.

Lemma remove_char_app (c : char) (a b : str) :
  remove_char c (a ++ b) = remove_char c a ++ remove_char c b.
Proof. apply filter_app. Qed.

Lemma norm_all_app (a b : str) :
  norm_all (a ++ b) = norm_all a ++ norm_all b.
Proof.
  unfold norm_all, normalized, remove_accents_fast, translate, casefold_str,
    strip_punct.
  now rewrite !remove_char_app, !flat_map_app.
Qed.

Lemma norm_all_flat_map (s : str) :
  norm_all s = flat_map (fun c => norm_all [c]) s.
Proof.
  induction s as [|c s IH]; [reflexivity|].
  change (c :: s) with ([c] ++ s). rewrite norm_all_app, IH. reflexivity.
Qed.

Lemma remove_char_In (c d : char) (s : str) :
  In d (remove_char c s) -> In d s.
Proof. unfold remove_char. intros H. now apply filter_In in H. Qed.

Lemma norm_char_space (c : char) :
  isspace c = true -> norm_all [c] = [c].
Proof.
  intros Hc.
  assert (Hd : N.eqb c dot = false).
  { apply N.eqb_neq. intros ->. rewrite isspace_dot in Hc. discriminate. }
  assert (Hm : N.eqb c comma = false).
  { apply N.eqb_neq. intros ->. rewrite isspace_comma in Hc. discriminate. }
  assert (Hh : N.eqb c hyphen = false).
  { apply N.eqb_neq. intros ->. rewrite isspace_hyphen in Hc. discriminate. }
  unfold norm_all, normalized, remove_accents_fast, translate, casefold_str,
    strip_punct, remove_char.
  cbn [filter]. rewrite Hd. cbn [negb filter]. rewrite Hm. cbn [negb filter].
  rewrite Hh. cbn [negb flat_map].
  rewrite (casefold_space c Hc). cbn [app flat_map].
  unfold TRANSLATION_TABLE. rewrite (combining_space c Hc).
  now destruct ((0x80 <=? c)%N && (c <? 0x10ffff)%N).
Qed.

Lemma norm_char_nonspace (c d : char) :
  isspace c = false -> In d (norm_all [c]) -> isspace d = false.
Proof.
  intros Hc Hd.
  unfold norm_all, normalized, remove_accents_fast, translate, casefold_str
    in Hd.
  apply in_flat_map in Hd. destruct Hd as [x [Hx Hd]].
  apply in_flat_map in Hx. destruct Hx as [y [Hy Hx]].
  unfold strip_punct in Hy. do 3 apply remove_char_In in Hy.
  destruct Hy as [<-|[]].
  assert (d = x) as ->.
  { unfold TRANSLATION_TABLE in Hd.
    destruct ((0x80 <=? x)%N && (x <? 0x10ffff)%N).
    - destruct (combining x); [destruct Hd|].
      now destruct Hd as [<-|[]].
    - now destruct Hd as [<-|[]]. }
  eapply casefold_nonspace; eassumption.
Qed.

(** The tokens of the normalized text are the normalized tokens of the
    name, those that normalization empties left out. *)
Lemma split_norm_all (name : str) :
  split (norm_all name) = filter nonemptyb (map norm_all (split name)).
Proof.
  unfold split. rewrite norm_all_flat_map.
  change (@nil char) with (flat_map (fun c => norm_all [c]) []) at 1.
  rewrite split_from_flat_map
    by (intros; first [now apply norm_char_space
                      | eapply norm_char_nonspace; eassumption]).
  f_equal. apply map_ext. intros t. symmetry. apply norm_all_flat_map.
Qed.

Lemma filter_disjoint_length {A} (p q : A -> bool) (l : list A) :
  (forall x, p x = true -> q x = false) ->
  length (filter p l) + length (filter q l) <= length l.
Proof.
  intros H. induction l as [|x l IH]; simpl; [lia|].
  destruct (p x) eqn:Ep.
  - rewrite (H x Ep). simpl. lia.
  - destruct (q x); simpl; lia.
Qed.

Lemma filter_map_length {A B} (h : A -> B) (p : B -> bool) (l : list A) :
  length (filter p (map h l)) = length (filter (fun x => p (h x)) l).
Proof.
  induction l as [|x l IH]; simpl; [reflexivity|].
  destruct (p (h x)); simpl; now rewrite IH.
Qed.

Lemma non_alphanum_length (nparts : list str) :
  length (non_alphanum nparts)
  = length (filter (fun t => str_eqb (strip_punct t) []) nparts).
Proof.
  unfold non_alphanum, enumerate. generalize 0.
  induction nparts as [|t l IH]; intros k; simpl; [reflexivity|].
  destruct (str_eqb (strip_punct t) []); simpl; now rewrite IH.
Qed.

(** The tokens that survive in the normalized text and the tokens set
    aside at line 156 are never more than the tokens of the name. *)
Lemma token_budget (name : str) :
  length (split (norm_all name)) + length (non_alphanum (split name))
  <= length (split name).
Proof.
  rewrite split_norm_all, filter_map_length, non_alphanum_length.
  apply filter_disjoint_length. intros t Ht.
  destruct (str_eqb (strip_punct t) []) eqn:He; [|reflexivity].
  apply str_eqb_eq in He.
  unfold norm_all in Ht. rewrite He in Ht. discriminate.
Qed.

Lemma filter_partition_length {A} (p q : A -> bool) (l : list A) :
  (forall x, In x l -> p x = negb (q x)) ->
  length (filter p l) + length (filter q l) = length l.
Proof.
  induction l as [|x l IH]; intros H; simpl; [reflexivity|].
  rewrite (H x (or_introl eq_refl)).
  destruct (q x); simpl; rewrite <- IH by (intros; apply H; now right); lia.
Qed.

(** The counts agree exactly when accent removal alone empties no token
    of the name. *)
Lemma token_count_aligned (name : str) :
  (forall t, In t (split name) -> norm_all t = [] -> strip_punct t = []) ->
  length (split (norm_all name)) + length (non_alphanum (split name))
  = length (split name).
Proof.
  intros H.
  rewrite split_norm_all, filter_map_length, non_alphanum_length.
  apply filter_partition_length. intros t Ht.
  destruct (str_eqb (strip_punct t) []) eqn:He; simpl.
  - apply str_eqb_eq in He. unfold norm_all. now rewrite He.
  - destruct (norm_all t) eqn:En; [|reflexivity].
    rewrite (H t Ht En), str_eqb_refl in He. discriminate.
Qed.

Lemma split_from_tokens (cur s t : str) :
  Forall (fun c => isspace c = false) cur ->
  In t (split_from cur s) ->
  Forall (fun c => isspace c = false) t.
Proof.
  revert cur. induction s as [|c s IH]; intros cur Hcur; simpl.
  - destruct cur; simpl; [intros [] | intros [<-|[]]; exact Hcur].
  - destruct (isspace c) eqn:Ec.
    + intros H. apply in_app_or in H. destruct H as [H|H].
      * destruct cur; simpl in H; [destruct H|].
        destruct H as [<-|[]]. exact Hcur.
      * apply (IH [] (Forall_nil _) H).
    + apply IH. apply Forall_app. split; [exact Hcur|]. now repeat constructor.
Qed.

(** The tokens of a catalog of [prepare_default_terms] hold no separator. *)
Lemma prepare_terms_separator_free (NON_NFKD_MAP : char -> option str)
  (terms : list str) :
  separator_free (prepare_terms NON_NFKD_MAP terms) = true.
Proof.
  unfold separator_free. apply forallb_forall. intros [n tp] Hin. simpl.
  assert (Htp : In tp (map split (normalize_terms NON_NFKD_MAP terms))).
  { eapply Permutation_in; [apply (sorted_perm key_leb)|].
    rewrite <- prepare_terms_snd. now apply (in_map snd) in Hin. }
  apply in_map_iff in Htp. destruct Htp as [s0 [<- _]].
  apply forallb_forall. intros t Ht. apply forallb_forall. intros c Hc.
  pose proof (split_from_tokens [] s0 t (Forall_nil _) Ht) as Hf.
  rewrite Forall_forall in Hf. now rewrite (Hf c Hc).
Qed.

End Tokens.

(** ** Reconstruction stays in range (lines 192-199) *)

Section Totality.

Context {U : Unicode} {L : UnicodeLaws U}.

(** The number of tokens depends on the places of the separators only. *)
Lemma split_from_mask (a b cur cur' : str) :
  map isspace a = map isspace b ->
  (cur = [] <-> cur' = []) ->
  length (split_from cur a) = length (split_from cur' b).
Proof.
  revert b cur cur'. induction a as [|c a IH]; intros [|d b] cur cur' Hm Hc;
    try discriminate.
  - simpl. destruct cur, cur'; try reflexivity.
    + destruct Hc as [Hc _]. now specialize (Hc eq_refl).
    + destruct Hc as [_ Hc]. now specialize (Hc eq_refl).
  - simpl in Hm. injection Hm as Hcd Hm. simpl. rewrite <- Hcd.
    destruct (isspace c).
    + rewrite !length_app. f_equal; [|now apply IH].
      destruct cur, cur'; try reflexivity.
      * destruct Hc as [Hc _]. now specialize (Hc eq_refl).
      * destruct Hc as [_ Hc]. now specialize (Hc eq_refl).
    + apply IH; [exact Hm|].
      split; intros H; now apply app_eq_nil in H.
Qed.

Lemma mark_mask (m : str) :
  space_only m -> map isspace (mark m) = map isspace m.
Proof.
  intros Hm. unfold mark. rewrite map_map. apply map_ext_in.
  intros c Hc. unfold mark_char.
  destruct (N.eqb_spec c space) as [->|Hne]; simpl; [reflexivity|].
  rewrite isspace_dot. symmetry.
  destruct (isspace c) eqn:E; [|reflexivity].
  now specialize (Hm c Hc E).
Qed.

Lemma apply_match_mask (nname buf : str) (x : entry) :
  genuine_entry nname x ->
  space_only (snd (snd x)) ->
  map isspace buf = map isspace nname ->
  map isspace (apply_match buf x) = map isspace nname.
Proof.
  destruct x as [p [[s e] m]]. intros [Hst Hg] Hsp Hmask. simpl in Hsp.
  pose proof (genuine_bounds nname e p m Hg) as [Hb He].
  destruct Hg as (_ & _ & _ & Hm). rewrite <- Hst in Hb, Hm.
  assert (Hlen : length buf = length nname).
  { rewrite <- (length_map isspace buf), Hmask. apply length_map. }
  unfold apply_match.
  rewrite slice_assign_inside by lia.
  rewrite !map_app, <- firstn_map, <- skipn_map, Hmask, mark_mask by assumption.
  rewrite firstn_map, skipn_map, <- !map_app. f_equal.
  rewrite Hm. symmetry. apply split_around; lia.
Qed.

Lemma apply_all_mask (nname : str) (ms : list entry) (buf : str) :
  Forall (genuine_entry nname) ms ->
  Forall (fun x => space_only (snd (snd x))) ms ->
  map isspace buf = map isspace nname ->
  map isspace (apply_all buf ms) = map isspace nname.
Proof.
  intros Hg. revert buf. unfold apply_all.
  induction Hg as [|x ms Hx _ IH]; intros buf Hsp Hmask; simpl.
  - exact Hmask.
  - inversion Hsp; subst. apply IH; [assumption|].
    now apply apply_match_mask.
Qed.

Lemma join_In (c : char) (tp : list str) :
  In c (join [space] tp) -> c = space \/ exists t, In t tp /\ In c t.
Proof.
  induction tp as [|t tp IH]; simpl; [intros []|].
  destruct tp as [|t' tp].
  - intros H. right. exists t. auto.
  - intros H. apply in_app_or in H. destruct H as [H|H].
    + right. exists t. auto.
    + destruct H as [<-|H]; [now left|].
      destruct (IH H) as [->|[t0 [H0 H1]]]; [now left|].
      right. exists t0. auto.
Qed.

Lemma build_automaton_space_only (terms : list (nat * list str)) :
  separator_free terms = true -> keys_space_only (build_automaton terms).
Proof.
  intros Hsf. unfold separator_free in Hsf. rewrite forallb_forall in Hsf.
  unfold keys_space_only, build_automaton. rewrite make_automaton_words.
  assert (H : forall l a,
             (forall it, In it l -> In (snd it) terms) ->
             (forall k v, In (k, v) (words a) -> space_only k) ->
             forall k v, In (k, v) (words (fold_left add_term l a)) ->
                         space_only k).
  { induction l as [|[idx [n tp]] l IH]; intros a Hl Ha; simpl; [exact Ha|].
    apply IH; [intros it Hit; apply Hl; now right|].
    unfold add_term, add_word.
    destruct (join [space] tp) as [|c0 key] eqn:Ej; [exact Ha|].
    simpl. intros k v Hin.
    apply assoc_set_In in Hin. destruct Hin as [Hin|[-> _]].
    - now apply (Ha k v).
    - intros c Hc Hs. rewrite <- Ej in Hc.
      apply join_In in Hc. destruct Hc as [->|[t [Ht Hc]]]; [reflexivity|].
      pose proof (Hsf _ (Hl (idx, (n, tp)) (or_introl eq_refl))) as H1.
      simpl in H1. rewrite forallb_forall in H1.
      specialize (H1 t Ht). rewrite forallb_forall in H1.
      specialize (H1 c Hc). rewrite Hs in H1. discriminate. }
  apply H.
  - intros [i x] Hin. apply enumerate_nth in Hin.
    now apply nth_error_In in Hin.
  - intros k v [].
Qed.

Lemma iter_space_only (a : Automaton) (nname : str) occ :
  wf_automaton a -> keys_space_only a ->
  iter a nname = Ok occ ->
  Forall (fun o => space_only (snd (snd o))) occ.
Proof.
  intros Ha Hk. unfold iter. destruct (kind a); try discriminate.
  intros [= <-]. apply Forall_forall. intros [e [p m]] Hin.
  apply in_flat_map in Hin. destruct Hin as [e' [_ Hin]].
  unfold matches_ending_at in Hin. apply in_flat_map in Hin.
  destruct Hin as [b [_ Hin]].
  destruct (assoc_get (substring nname b e') (words a)) as [[p' m']|] eqn:E;
    [|destruct Hin].
  destruct Hin as [[= <- <- <-]|[]].
  apply assoc_get_In in E. simpl.
  destruct (Ha _ _ E) as [Hv _]. simpl in Hv. subst m'.
  now apply (Hk _ _ E).
Qed.

Lemma collect_matches_text (P : str -> Prop) (nname : str) (f : Flags)
  occ matches ms :
  Forall (fun o => P (snd (snd o))) occ ->
  Forall (fun x : entry => P (snd (snd x))) matches ->
  collect_matches nname f occ matches = Ok ms ->
  Forall (fun x : entry => P (snd (snd x))) ms.
Proof.
  intros Hocc. revert matches.
  induction Hocc as [|[e [p m]] occ Ho _ IH]; intros matches Hms; simpl.
  - now intros [= <-].
  - destruct (accept nname f _ e) as [ok|]; simpl; [|discriminate].
    apply IH. destruct ok; [|exact Hms].
    unfold heappush.
    eapply Permutation_Forall; [symmetry; apply insert_sorted_perm|].
    now constructor.
Qed.

Lemma list_insert_length {A} (idx : nat) (x : A) (l : list A) :
  length (list_insert idx x l) = S (length l).
Proof.
  unfold list_insert. rewrite length_app. cbn [length].
  rewrite <- (firstn_skipn idx l) at 3. rewrite length_app. lia.
Qed.

Lemma reinsert_length (toks : list (nat * str)) (tokens : list str) :
  length (reinsert toks tokens) = length toks + length tokens.
Proof.
  unfold reinsert. revert tokens.
  induction toks as [|it toks IH]; intros tokens; simpl; [reflexivity|].
  rewrite IH, list_insert_length. lia.
Qed.

Lemma build_final_ok (nparts tokens : list str) (i : nat) :
  i + length tokens <= length nparts ->
  exists final, build_final nparts i tokens = Ok final.
Proof.
  revert i. induction tokens as [|x tokens IH]; intros i Hi; simpl.
  - eauto.
  - simpl in Hi. destruct (IH (S i)) as [rest Hrest]; [lia|].
    rewrite Hrest. destruct (negb _); [|eauto].
    rewrite (py_index_in_range nparts _ []) by lia. simpl. eauto.
Qed.

(** C10.  A call answered by a built automaton (one that holds a word,
    its tokens free of separators as [split] produces them) returns a
    string for every name and every flag setting: the indices of lines
    166-167 into the normalized text and of line 199 into the tokens of
    the name stay in range, and [iter] does not refuse the automaton. *)
Theorem custom_basename_total (st : State) (name : str)
  (terms terms0 : list (nat * list str)) (f : Flags) :
  effective st terms = build_automaton terms0 ->
  kind (build_automaton terms0) = AHOCORASICK ->
  separator_free terms0 = true ->
  exists out, snd (custom_basename st name terms f) = Ok out.
Proof.
  intros Heff Hk Hsf. simpl. rewrite Heff.
  set (a := build_automaton terms0) in *.
  pose proof (build_automaton_wf terms0 : wf_automaton a) as Hwf.
  pose proof (build_automaton_space_only terms0 Hsf : keys_space_only a)
    as Hkeys.
  rewrite clean_accepted. unfold accepted_matches.
  set (nname := normalized (strip_punct (strip_tail name))).
  destruct (iter a nname) as [occ|e] eqn:Eit;
    [|unfold iter in Eit; rewrite Hk in Eit; discriminate].
  cbn [bind].
  destruct (collect_matches_genuine nname f occ []
              (iter_genuine _ _ _ Hwf Eit) (Forall_nil _))
    as (ms & Hms & Hg).
  pose proof (collect_matches_text space_only nname f occ [] ms
                (iter_space_only _ _ _ Hwf Hkeys Eit) (Forall_nil _) Hms)
    as Hsp.
  rewrite Hms. cbn [bind].
  destruct (length ms =? 0); [eauto|].
  rewrite pop_all_apply_all. cbn [bind].
  destruct (build_final_ok (split (strip_tail name))
              (reinsert (non_alphanum (split (strip_tail name)))
                 (split (apply_all nname ms))) 0) as [final Hfinal].
  - rewrite reinsert_length. simpl.
    unfold split at 2.
    rewrite (split_from_mask (apply_all nname ms) nname [] [])
      by (try reflexivity; now apply apply_all_mask).
    pose proof (token_budget (strip_tail name)) as Hb.
    unfold norm_all in Hb. fold nname in Hb. unfold split in Hb at 1. lia.
  - rewrite Hfinal. cbn [bind]. eauto.
Qed.

End Totality.

(** ** The fragment of the tables obeys the laws *)

Lemma frag_laws : UnicodeLaws frag.
Proof.
  split; try reflexivity.
  - intros c Hc. simpl in *. unfold frag_isspace in Hc. unfold frag_casefold.
    destruct (N.leb_spec 65 c), (N.leb_spec c 90); simpl; try reflexivity.
    destruct (N.leb_spec 9 c), (N.leb_spec c 13), (N.leb_spec 28 c),
      (N.leb_spec c 32); simpl in Hc; try discriminate; lia.
  - intros c Hc. simpl in *. unfold frag_isspace in Hc. unfold frag_combining.
    apply N.eqb_neq. intros ->. discriminate.
  - intros c d Hc Hd. simpl in *. unfold frag_casefold in Hd.
    destruct (N.leb_spec 65 c), (N.leb_spec c 90); simpl in Hd;
      destruct Hd as [<-|[]]; try exact Hc.
    unfold frag_isspace.
    destruct (N.leb_spec 9 (c + 32)), (N.leb_spec (c + 32) 13),
      (N.leb_spec 28 (c + 32)), (N.leb_spec (c + 32) 32);
      simpl; try reflexivity; lia.
Qed.

(** A first call with the catalog of [ltd] *)
Lemma custom_basename_total_witness :
  exists out,
    snd (custom_basename None (py "Acme & Sons, Ltd.")
           [(1, [py "ltd"])] default_flags) = Ok out.
Proof.
  apply (@custom_basename_total frag frag_laws None (py "Acme & Sons, Ltd.")
           [(1, [py "ltd"])] [(1, [py "ltd"])] default_flags);
    reflexivity.
Defined.

(** ** What reconstruction keeps *)

Section Retained.

Context {U : Unicode}.

Lemma subseq_skipn_S {A} (l L : list A) (i : nat) :
  subseq l (skipn (S i) L) -> subseq l (skipn i L).
Proof.
  revert i. induction L as [|x L IH]; intros i H.
  - now rewrite skipn_nil in *.
  - destruct i as [|i]; [now constructor|].
    simpl. apply IH. exact H.
Qed.

Lemma py_index_nth_error {A} (l : list A) (i : nat) (x : A) :
  py_index l (Z.of_nat i) = Ok x -> nth_error l i = Some x.
Proof.
  unfold py_index. destruct (Z.ltb_spec (Z.of_nat i) 0); [lia|].
  destruct (Z.ltb_spec (Z.of_nat i) 0); [lia|].
  rewrite Nat2Z.id. destruct (nth_error l i); congruence.
Qed.

Lemma skipn_nth_error {A} (l : list A) (i : nat) (x : A) :
  nth_error l i = Some x -> skipn i l = x :: skipn (S i) l.
Proof.
  revert i. induction l as [|y l IH]; intros [|i] H; try discriminate.
  - now injection H as ->.
  - simpl in H. apply IH in H. exact H.
Qed.

Lemma build_final_subseq (nparts tokens final : list str) (i : nat) :
  build_final nparts i tokens = Ok final -> subseq final (skipn i nparts).
Proof.
  revert i final. induction tokens as [|x tokens IH]; intros i final; simpl.
  - intros [= <-]. constructor.
  - destruct (negb _).
    + destruct (py_index nparts (Z.of_nat i)) as [p|] eqn:Ep; simpl;
        [|discriminate].
      destruct (build_final nparts (S i) tokens) as [rest|] eqn:Er; simpl;
        [|discriminate].
      intros [= <-]. apply py_index_nth_error in Ep.
      rewrite (skipn_nth_error _ _ _ Ep). apply subseq_take. now apply IH.
    + intros H. apply subseq_skipn_S. now apply IH.
Qed.

(** X21.  Whatever a call returns is the trimmed name itself, or some of
    the tokens of the trimmed name, as they were written and in their
    order, joined by single spaces and trimmed. *)
Lemma retained_tokens (a : Automaton) (name : str) (f : Flags) (out : str) :
  clean a name f = Ok out ->
  out = strip_tail name
  \/ exists final, subseq final (split (strip_tail name))
                   /\ out = strip_tail (join [space] final).
Proof.
  rewrite clean_accepted.
  destruct (accepted_matches a name f) as [ms|]; simpl; [|discriminate].
  destruct (length ms =? 0); [intros [= <-]; now left|].
  destruct (pop_all _ _ _) as [buf|]; simpl; [|discriminate].
  destruct (build_final _ _ _) as [final|] eqn:Ef; simpl; [|discriminate].
  intros [= <-]. right. exists final. split; [|reflexivity].
  apply build_final_subseq in Ef. exact Ef.
Qed.

End Retained.

(** ** A token made of combining marks *)

(** C9 at a failing input.  The token U+0301 of [Acme U+0301 Ltd Paris] is
    not set aside at line 156, for [strip_punct] leaves it as it is, and
    it is gone from the normalized text, for [remove_accents_fast] drops
    it: the three tokens of the marked buffer stand against the four of
    the name, the token kept for [paris] is [Ltd], and [Paris] is lost. *)
Theorem combining_token_misaligned :
  let name := py "Acme " ++ [0x301%N] ++ py " Ltd Paris" in
  let f := {| suffix := true; prefix := false; middle := true |} in
  let a := build_automaton [(1, [py "ltd"])] in
  split name = [py "Acme"; [0x301%N]; py "Ltd"; py "Paris"]
  /\ non_alphanum (split name) = []
  /\ accepted_matches a name f = Ok [(0, (6%Z, 8%Z, py "ltd"))]
  /\ split (mark_union (norm_all name) [(0, (6%Z, 8%Z, py "ltd"))])
     = [py "acme"; py "..."; py "paris"]
  /\ snd (custom_basename None name [(1, [py "ltd"])] f) = Ok (py "Acme Ltd").
Proof. repeat split; reflexivity. Qed.

(** ** The examples of section 8 of the specification *)

Example priority_determinism :
  snd (custom_basename None (py "Acme Holding Company")
         [(2, [py "holding"; py "company"]); (1, [py "company"])]
         default_flags)
  = Ok (py "Acme").
Proof. reflexivity. Qed.

Example boundary_strictness :
  snd (custom_basename None (py "Incorporated") [(1, [py "inc"])]
         default_flags) = Ok (py "Incorporated")
  /\ snd (custom_basename None (py "Incorporated") [(1, [py "inc"])]
            {| suffix := false; prefix := true; middle := false |})
     = Ok (py "Incorporated")
  /\ snd (custom_basename None (py "Acme Inc") [(1, [py "inc"])]
            default_flags) = Ok (py "Acme").
Proof. repeat split; reflexivity. Qed.

Example flag_gating :
  snd (custom_basename None (py "Ltd Acme Ltd") [(1, [py "ltd"])]
         {| suffix := false; prefix := true; middle := false |})
  = Ok (py "Acme Ltd").
Proof. reflexivity. Qed.

Example punctuation_preservation :
  snd (custom_basename None (py "Acme & Sons, Ltd.") [(1, [py "ltd"])]
         default_flags)
  = Ok (py "Acme & Sons").
Proof. reflexivity. Qed.

(** * Further properties of [clean.py] *)

(** ** [strip_tail], [strip_punct] and the tokens set aside *)

Section Strings.

Context {U : Unicode}.

Lemma strip_tail_rev_spec (r : str) :
  exists pre,
    r = pre ++ strip_tail_rev r
    /\ Forall (fun c => isalnum c = false /\ c <> dot) pre
    /\ (strip_tail_rev r = []
        \/ exists c rest, strip_tail_rev r = c :: rest
                          /\ (isalnum c = true \/ c = dot)).
Proof.
  induction r as [|c r IH]; simpl.
  - exists []. repeat split; auto.
  - destruct (isalnum c) eqn:Ea; simpl.
    + exists []. repeat split; auto. right. exists c, r. auto.
    + destruct (N.eqb_spec c dot) as [->|Hne]; simpl.
      * exists []. repeat split; auto. right. exists dot, r. auto.
      * destruct IH as (pre & Hr & Hpre & Hlast).
        exists (c :: pre). repeat split.
        -- simpl. now f_equal.
        -- constructor; auto.
        -- exact Hlast.
Qed.

(** X1.  [strip_tail] cuts a tail off the name: every character of the
    tail is neither alphanumeric nor a dot, and what is left is empty or
    ends in an alphanumeric character or a dot; a second application
    changes nothing. *)
Theorem strip_tail_spec (name : str) :
  (exists tail,
      name = strip_tail name ++ tail
      /\ Forall (fun c => isalnum c = false /\ c <> dot) tail)
  /\ (strip_tail name = []
      \/ exists init c, strip_tail name = init ++ [c]
                        /\ (isalnum c = true \/ c = dot))
  /\ strip_tail (strip_tail name) = strip_tail name.
Proof.
  unfold strip_tail.
  destruct (strip_tail_rev_spec (rev name)) as (pre & Hr & Hpre & Hlast).
  split; [|split].
  - exists (rev pre). split.
    + rewrite <- rev_app_distr, <- Hr. now rewrite rev_involutive.
    + now apply Forall_rev.
  - destruct Hlast as [->|(c & rest & -> & Hc)]; [now left|].
    right. exists (rev rest), c. simpl. auto.
  - now rewrite rev_involutive, strip_tail_rev_idem.
Qed.

Lemma remove_char_filter (c : char) (g : char -> bool) (s : str) :
  remove_char c (filter g s) = filter (fun x => g x && negb (N.eqb x c)) s.
Proof.
  unfold remove_char. induction s as [|x s IH]; simpl; [reflexivity|].
  destruct (g x); simpl; [|exact IH].
  destruct (negb (N.eqb x c)); simpl; now rewrite IH.
Qed.

Lemma strip_punct_filter (t : str) :
  strip_punct t = filter (fun c => negb (is_punct c)) t.
Proof.
  unfold strip_punct. unfold remove_char at 3.
  rewrite !remove_char_filter. apply filter_ext. intros c.
  unfold is_punct. now rewrite !negb_orb.
Qed.

Lemma strip_punct_nil (t : str) :
  strip_punct t = [] <-> Forall (fun c => is_punct c = true) t.
Proof.
  rewrite strip_punct_filter. induction t as [|c t IH]; simpl.
  - split; auto.
  - destruct (is_punct c) eqn:E; simpl.
    + rewrite IH. split; [now constructor | now inversion 1].
    + split; [discriminate|]. inversion 1. congruence.
Qed.

(** X2.  [strip_punct] removes the characters [.], [,] and [-] and
    nothing else, keeps the order of the others, distributes over
    concatenation, and leaves nothing for a second application; it
    returns the empty string exactly on the strings made of these three
    characters. *)
Theorem strip_punct_spec (t u : str) :
  strip_punct t = filter (fun c => negb (is_punct c)) t
  /\ (forall c, In c (strip_punct t) <-> In c t /\ is_punct c = false)
  /\ strip_punct (t ++ u) = strip_punct t ++ strip_punct u
  /\ strip_punct (strip_punct t) = strip_punct t
  /\ (strip_punct t = [] <-> Forall (fun c => is_punct c = true) t).
Proof.
  split; [apply strip_punct_filter|]. split; [|split; [|split]].
  - intros c. rewrite strip_punct_filter, filter_In.
    now rewrite negb_true_iff.
  - rewrite !strip_punct_filter. apply filter_app.
  - rewrite !strip_punct_filter.
    induction t as [|c t IH]; simpl; [reflexivity|].
    destruct (negb (is_punct c)) eqn:E; simpl; [rewrite E|]; now rewrite IH.
  - apply strip_punct_nil.
Qed.

Lemma enumerate_from_In {A} (l : list A) (k i : nat) (x : A) :
  In (i, x) (combine (seq k (length l)) l)
  <-> k <= i /\ nth_error l (i - k) = Some x.
Proof.
  split; [apply enumerate_from_nth|].
  revert k. induction l as [|y l IH]; intros k [Hk Hn]; simpl.
  - destruct (i - k); discriminate.
  - destruct (Nat.eq_dec i k) as [->|Hne].
    + rewrite Nat.sub_diag in Hn. simpl in Hn. injection Hn as ->. now left.
    + right. apply IH. split; [lia|].
      replace (i - k) with (S (i - S k)) in Hn by lia. exact Hn.
Qed.

(** X3.  The tokens that lines 151-158 set aside for reinsertion are
    the tokens of the name made only of [.], [,] and [-], each with its
    position among the tokens of the name, in increasing order of the
    positions. *)
Theorem non_alphanum_spec (nparts : list str) :
  (forall i t,
      In (i, t) (non_alphanum nparts)
      <-> nth_error nparts i = Some t
          /\ Forall (fun c => is_punct c = true) t)
  /\ StronglySorted lt (map fst (non_alphanum nparts)).
Proof.
  split.
  - intros i t. unfold non_alphanum, enumerate.
    rewrite filter_In, enumerate_from_In, Nat.sub_0_r. simpl.
    rewrite str_eqb_eq, strip_punct_nil.
    intuition lia.
  - unfold non_alphanum, enumerate. generalize 0.
    induction nparts as [|t l IH]; intros k; simpl; [constructor|].
    destruct (str_eqb (strip_punct t) []); simpl; [|apply IH].
    constructor; [apply IH|].
    apply Forall_forall. intros j Hj.
    apply in_map_iff in Hj. destruct Hj as [[j' t'] [<- Hj]].
    apply filter_In in Hj. destruct Hj as [Hj _].
    apply enumerate_from_nth in Hj. simpl. lia.
Qed.

Lemma translate_filter (s : str) :
  translate TRANSLATION_TABLE s
  = filter (fun c => negb (in_table c && combining c)) s.
Proof.
  unfold translate. induction s as [|c s IH]; simpl; [reflexivity|].
  rewrite IH. unfold TRANSLATION_TABLE, in_table.
  destruct ((0x80 <=? c)%N && (c <? 0x10ffff)%N); simpl; [|reflexivity].
  now destruct (combining c).
Qed.

(** X4.  [remove_accents_fast] folds the case of the text and then drops
    the combining characters from U+0080 up to, not including, U+10FFFF:
    no such character is left, every other character of the folded text
    stays in its place, and the function distributes over
    concatenation. *)
Theorem remove_accents_fast_spec (text rest : str) :
  remove_accents_fast text
  = filter (fun c => negb (in_table c && combining c)) (casefold_str text)
  /\ (forall c, In c (remove_accents_fast text) ->
                in_table c = true -> combining c = false)
  /\ (forall c, In c (casefold_str text) ->
                in_table c = false \/ combining c = false ->
                In c (remove_accents_fast text))
  /\ remove_accents_fast (text ++ rest)
     = remove_accents_fast text ++ remove_accents_fast rest.
Proof.
  unfold remove_accents_fast. rewrite !translate_filter.
  split; [reflexivity|]. split; [|split].
  - intros c Hc Ht. apply filter_In in Hc. destruct Hc as [_ Hc].
    rewrite Ht in Hc. simpl in Hc. now apply negb_true_iff in Hc.
  - intros c Hc H. apply filter_In. split; [exact Hc|].
    apply negb_true_iff, andb_false_iff. exact H.
  - unfold casefold_str. now rewrite flat_map_app, filter_app.
Qed.

(** X5.  [remove_accents] takes the NFKD form of the folded term, drops
    its nonspacing marks and then replaces each remaining character that
    [NON_NFKD_MAP] knows; what the map puts in is not filtered again.
    With a map that knows no character the result holds no nonspacing
    mark. *)
Theorem remove_accents_spec (NON_NFKD_MAP : char -> option str) (t : str) :
  remove_accents NON_NFKD_MAP t
  = flat_map
      (fun c => match NON_NFKD_MAP c with Some r => r | None => [c] end)
      (filter (fun c => negb (category_Mn c)) (nfkd (casefold_str t)))
  /\ ((forall c, NON_NFKD_MAP c = None) ->
      remove_accents NON_NFKD_MAP t
      = filter (fun c => negb (category_Mn c)) (nfkd (casefold_str t))
      /\ forall c, In c (remove_accents NON_NFKD_MAP t) ->
                   category_Mn c = false).
Proof.
  unfold remove_accents.
  assert (H : forall s,
             flat_map
               (fun part =>
                  flat_map
                    (fun c =>
                       if negb (category_Mn part)
                       then match NON_NFKD_MAP c with
                            | Some r => r
                            | None => [c]
                            end
                       else [])
                    [part]) s
             = flat_map
                 (fun c => match NON_NFKD_MAP c with
                           | Some r => r
                           | None => [c]
                           end)
                 (filter (fun c => negb (category_Mn c)) s)).
  { induction s as [|c s IH]; simpl in *; [reflexivity|].
    rewrite IH, app_nil_r. destruct (negb (category_Mn c)); reflexivity. }
  split; [apply H|]. intros Hmap. rewrite H.
  assert (Hid : forall s : str,
             flat_map
               (fun c => match NON_NFKD_MAP c with
                         | Some r => r
                         | None => [c]
                         end) s = s).
  { induction s as [|c s IH]; simpl; [reflexivity|].
    now rewrite Hmap, IH. }
  rewrite Hid. split; [reflexivity|].
  intros c Hc. apply filter_In in Hc. destruct Hc as [_ Hc].
  now apply negb_true_iff in Hc.
Qed.

End Strings.

(** ** The catalog and the words of the automaton *)

Section CatalogWords.

Context {U : Unicode}.

Lemma split_from_nonempty (cur s t : str) :
  In t (split_from cur s) -> t <> [].
Proof.
  revert cur. induction s as [|c s IH]; intros cur; simpl.
  - destruct cur; simpl; [intros [] | intros [<-|[]]; discriminate].
  - destruct (isspace c).
    + intros H. apply in_app_or in H. destruct H as [H|H]; [|now apply IH in H].
      destruct cur; simpl in H; [destruct H|].
      destruct H as [<-|[]]. discriminate.
    + apply IH.
Qed.

Lemma split_from_chars (cur s t : str) (c : char) :
  In t (split_from cur s) -> In c t -> In c cur \/ In c s.
Proof.
  revert cur. induction s as [|d s IH]; intros cur; simpl.
  - destruct cur; simpl; [intros [] | intros [<-|[]]; auto].
  - destruct (isspace d).
    + intros H Hc. apply in_app_or in H. destruct H as [H|H].
      * destruct cur; simpl in H; [destruct H|].
        destruct H as [<-|[]]. auto.
      * destruct (IH [] H Hc) as [[]|H']. auto.
    + intros H Hc. destruct (IH _ H Hc) as [H'|H']; [|auto].
      apply in_app_or in H'. destruct H' as [H'|[<-|[]]]; auto.
Qed.

(** X6.  Every entry of the catalog of [prepare_default_terms] carries
    the number of its tokens, and every token is non-empty, holds no
    separator of [split] and none of [.], [,] and [-]. *)
Theorem catalog_tokens (NON_NFKD_MAP : char -> option str)
  (terms : list str) :
  Forall
    (fun e =>
       fst e = length (snd e)
       /\ Forall
            (fun t =>
               t <> []
               /\ Forall (fun c => isspace c = false /\ is_punct c = false) t)
            (snd e))
    (prepare_terms NON_NFKD_MAP terms).
Proof.
  apply Forall_forall. intros [n tp] Hin. simpl.
  assert (Htp : In tp (map split (normalize_terms NON_NFKD_MAP terms))).
  { eapply Permutation_in; [apply (sorted_perm key_leb)|].
    rewrite <- prepare_terms_snd. now apply (in_map snd) in Hin. }
  split.
  - unfold prepare_terms in Hin. apply in_map_iff in Hin.
    destruct Hin as [tp' [[= <- <-] _]]. reflexivity.
  - apply in_map_iff in Htp. destruct Htp as [s0 [<- Hs0]].
    unfold normalize_terms in Hs0. apply in_map_iff in Hs0.
    destruct Hs0 as [raw [<- _]].
    apply Forall_forall. intros t Ht. split.
    + eapply split_from_nonempty. exact Ht.
    + pose proof (split_from_tokens [] _ t (Forall_nil _) Ht) as Hsp.
      rewrite Forall_forall in Hsp.
      apply Forall_forall. intros c Hc. split; [now apply Hsp|].
      destruct (split_from_chars [] _ t c Ht Hc) as [[]|Hc'].
      rewrite strip_punct_filter in Hc'. apply filter_In in Hc'.
      now apply negb_true_iff.
Qed.

Lemma assoc_get_set_same {V} (key : str) (v : V) (l : list (str * V)) :
  assoc_get key (assoc_set key v l) = Some v.
Proof.
  induction l as [|[k w] l IH]; simpl.
  - now rewrite str_eqb_refl.
  - destruct (str_eqb k key) eqn:E; simpl; now rewrite E.
Qed.

Lemma assoc_get_set_other {V} (key key' : str) (v : V)
  (l : list (str * V)) :
  key' <> key -> assoc_get key' (assoc_set key v l) = assoc_get key' l.
Proof.
  intros Hne. induction l as [|[k w] l IH]; simpl.
  - destruct (str_eqb key key') eqn:E; [|reflexivity].
    apply str_eqb_eq in E. congruence.
  - destruct (str_eqb k key) eqn:E; simpl.
    + apply str_eqb_eq in E. subst k.
      destruct (str_eqb key key') eqn:E'; [|reflexivity].
      apply str_eqb_eq in E'. congruence.
    + destruct (str_eqb k key'); [reflexivity | exact IH].
Qed.

Lemma enumerate_from_snoc {A} (l : list A) (x : A) (k : nat) :
  combine (seq k (length (l ++ [x]))) (l ++ [x])
  = combine (seq k (length l)) l ++ [(k + length l, x)].
Proof.
  revert k. induction l as [|y l IH]; intros k; simpl.
  - now rewrite Nat.add_0_r.
  - rewrite IH. now rewrite Nat.add_succ_comm.
Qed.

Lemma trie_snoc (cat : list (nat * list str)) (x : nat * list str) :
  fold_left add_term (enumerate (cat ++ [x])) new_automaton
  = add_term (fold_left add_term (enumerate cat) new_automaton)
      (length cat, x).
Proof.
  unfold enumerate. rewrite enumerate_from_snoc, fold_left_app. reflexivity.
Qed.

(** X7.  Looking a word up in the automaton of [build_automaton]: when
    it is found, its value is the word itself with the last position of
    the catalog whose tokens join to it; when it is not found, and is
    not empty, no entry of the catalog joins to it. *)
Theorem build_automaton_lookup (cat : list (nat * list str)) (key : str) :
  match assoc_get key (words (build_automaton cat)) with
  | Some (i, t) =>
      t = key
      /\ (exists n tp, nth_error cat i = Some (n, tp)
                       /\ join [space] tp = key)
      /\ Forall (fun e => join [space] (snd e) <> key) (skipn (S i) cat)
  | None =>
      key = [] \/ Forall (fun e => join [space] (snd e) <> key) cat
  end.
Proof.
  unfold build_automaton. rewrite make_automaton_words.
  induction cat as [|[n tp] cat IH] using rev_ind.
  - simpl. right. constructor.
  - rewrite trie_snoc. unfold add_term, add_word.
    destruct (join [space] tp) as [|c0 key0] eqn:Ej.
    + destruct (assoc_get key _) as [[i t]|] eqn:Eg.
      * destruct IH as (Ht & (n' & tp' & Hn & Hj) & Hlast).
        assert (Hi : i < length cat)
          by (apply nth_error_Some; congruence).
        assert (Hkey : key <> []).
        { apply assoc_get_In in Eg.
          rewrite <- make_automaton_words in Eg.
          now apply (build_automaton_wf cat) in Eg. }
        split; [exact Ht|]. split.
        -- exists n', tp'. split; [|exact Hj].
           rewrite nth_error_app1 by exact Hi. exact Hn.
        -- rewrite skipn_app. apply Forall_app. split; [exact Hlast|].
           replace (S i - length cat) with 0 by lia. simpl.
           constructor; [|constructor]. simpl. rewrite Ej. congruence.
      * destruct IH as [->|IH]; [now left|].
        destruct key as [|k0 key1]; [now left|]. right.
        apply Forall_app. split; [exact IH|].
        constructor; [|constructor]. simpl. rewrite Ej. discriminate.
    + simpl words. destruct (str_eq_dec key (c0 :: key0)) as [->|Hne].
      * rewrite assoc_get_set_same. split; [reflexivity|]. split.
        -- exists n, tp. split; [|exact Ej].
           rewrite nth_error_app2 by lia. now rewrite Nat.sub_diag.
        -- rewrite skipn_all2 by (rewrite length_app; simpl; lia).
           constructor.
      * rewrite assoc_get_set_other by exact Hne.
        destruct (assoc_get key _) as [[i t]|].
        -- destruct IH as (Ht & (n' & tp' & Hn & Hj) & Hlast).
           assert (Hi : i < length cat)
             by (apply nth_error_Some; congruence).
           split; [exact Ht|]. split.
           ++ exists n', tp'. split; [|exact Hj].
              rewrite nth_error_app1 by exact Hi. exact Hn.
           ++ rewrite skipn_app. apply Forall_app. split; [exact Hlast|].
              replace (S i - length cat) with 0 by lia. simpl.
              constructor; [|constructor]. simpl. rewrite Ej. congruence.
        -- destruct IH as [->|IH]; [now left|]. right.
           apply Forall_app. split; [exact IH|].
           constructor; [|constructor]. simpl. rewrite Ej. congruence.
Qed.

End CatalogWords.

(** ** The filter with [middle] enabled, and the flags one by one *)

Section FilterMore.

Context {U : Unicode}.

(** X8.  With [middle] enabled a candidate inside the text is accepted
    if and only if the character before it, if any, and the character
    after it, if any, are not alphanumeric, it does not start the text
    unless [prefix] is enabled, and it does not end the text unless
    [suffix] is enabled. *)
Theorem accept_middle (nname : str) (f : Flags) (start_idx end_idx : Z) :
  middle f = true ->
  (0 <= start_idx <= end_idx)%Z ->
  (end_idx < Z.of_nat (length nname))%Z ->
  accept nname f start_idx end_idx
  = Ok (spec_left_ok nname start_idx
        && spec_right_boundary nname end_idx
        && (prefix f || negb (start_idx =? 0)%Z)
        && (suffix f
            || negb (end_idx =? Z.of_nat (length nname) - 1)%Z)).
Proof.
  intros Hm Hs He. rewrite accept_eval by assumption.
  unfold cond_2_flags. rewrite Hm. f_equal.
  destruct (spec_left_ok nname start_idx),
    (spec_right_boundary nname end_idx), (prefix f), (suffix f),
    (start_idx =? 0)%Z, (end_idx =? Z.of_nat (length nname) - 1)%Z;
    reflexivity.
Qed.

(** X9.  Enabling [prefix] or [suffix] never turns an accepted candidate
    into a refused one, whatever the other flags are. *)
Theorem accept_monotone (nname : str) (f : Flags) (start_idx end_idx : Z) :
  accept nname f start_idx end_idx = Ok true ->
  accept nname {| suffix := suffix f; prefix := true; middle := middle f |}
    start_idx end_idx = Ok true
  /\ accept nname {| suffix := true; prefix := prefix f; middle := middle f |}
       start_idx end_idx = Ok true.
Proof.
  unfold accept.
  destruct (cond_1 nname start_idx) as [c1|]; simpl; [|discriminate].
  destruct (cond_2_boundary nname end_idx) as [c2|]; simpl; [|discriminate].
  unfold cond_2_flags. destruct f as [sf pf mf]. simpl.
  destruct c1, c2, sf, pf, mf, (start_idx =? 0)%Z,
    (end_idx =? Z.of_nat (length nname) - 1)%Z;
    simpl; intros H; try discriminate; split; reflexivity.
Qed.

End FilterMore.

(** Enabling [middle] is another matter: a match that is the whole text
    is accepted as a prefix, and refused once [middle] is on with
    [suffix] off. *)
Example middle_can_refuse :
  accept (py "ltd") {| suffix := false; prefix := true; middle := false |}
    0 2 = Ok true
  /\ accept (py "ltd") {| suffix := false; prefix := true; middle := true |}
       0 2 = Ok false.
Proof. split; reflexivity. Qed.

Lemma accept_middle_witness :
  accept (py "acme ltd sa")
    {| suffix := false; prefix := false; middle := true |} 5 7 = Ok true.
Proof.
  rewrite accept_middle; [reflexivity | reflexivity | lia | simpl; lia].
Defined.

Lemma accept_monotone_witness :
  accept (py "acme ltd") {| suffix := true; prefix := true; middle := false |}
    5 7 = Ok true.
Proof.
  exact (proj1 (accept_monotone (py "acme ltd") default_flags 5 7 eq_refl)).
Defined.

(** ** What [custom_basename] returns *)

Section Output.

Context {U : Unicode}.

Lemma strip_tail_all (name : str) :
  Forall (fun c => isalnum c = false /\ c <> dot) name ->
  strip_tail name = [].
Proof.
  intros H. unfold strip_tail. apply Forall_rev in H.
  induction H as [|c r [Ha Hd] _ IH]; simpl; [reflexivity|].
  rewrite Ha. apply N.eqb_neq in Hd. rewrite Hd. simpl. exact IH.
Qed.

(** X10.  A name without an alphanumeric character and without a dot,
    the empty name among them, is cleaned to the empty string by a call
    that a built automaton answers. *)
Theorem custom_basename_blank (st : State) (name : str)
  (terms : list (nat * list str)) (f : Flags) :
  Forall (fun c => isalnum c = false /\ c <> dot) name ->
  kind (effective st terms) = AHOCORASICK ->
  snd (custom_basename st name terms f) = Ok [].
Proof.
  intros Hname Hk. simpl. unfold clean.
  rewrite (strip_tail_all name Hname). simpl.
  unfold iter. rewrite Hk. reflexivity.
Qed.

(** X11.  Whatever [custom_basename] returns is empty or ends in an
    alphanumeric character or a dot. *)
Theorem custom_basename_trimmed (st : State) (name : str)
  (terms : list (nat * list str)) (f : Flags) (out : str) :
  snd (custom_basename st name terms f) = Ok out ->
  out = []
  \/ exists init c, out = init ++ [c] /\ (isalnum c = true \/ c = dot).
Proof.
  simpl. intros H. apply clean_stripped in H.
  rewrite <- H. unfold strip_tail.
  destruct (strip_tail_rev_spec (rev out)) as (_ & _ & _ & Hlast).
  destruct Hlast as [->|(c & rest & -> & Hc)]; [now left|].
  right. exists (rev rest), c. simpl. auto.
Qed.

End Output.

Lemma custom_basename_blank_witness :
  snd (custom_basename None (py " ,- & ") [(1, [py "ltd"])] default_flags)
  = Ok [].
Proof.
  apply (custom_basename_blank None (py " ,- & ") [(1, [py "ltd"])]
           default_flags); [|reflexivity].
  repeat constructor; discriminate.
Defined.

Lemma custom_basename_trimmed_witness :
  py "Acme & Sons" = []
  \/ exists init c,
       py "Acme & Sons" = init ++ [c] /\ (isalnum c = true \/ c = dot).
Proof.
  exact (custom_basename_trimmed None (py "Acme & Sons, Ltd.")
           [(1, [py "ltd"])] default_flags (py "Acme & Sons") eq_refl).
Defined.

(** ** Tokens, words and the default catalog *)

Section TokensMore.

Context {U : Unicode} {L : UnicodeLaws U}.

Lemma split_join (tp : list str) :
  Forall (fun t => t <> [] /\ Forall (fun c => isspace c = false) t) tp ->
  split (join [space] tp) = tp.
Proof.
  unfold split. induction 1 as [|t tp [Hne Hsp] Htp IH]; [reflexivity|].
  simpl. destruct tp as [|t' tp].
  - rewrite <- (app_nil_r t) at 1.
    rewrite split_from_nonspace by exact Hsp. simpl.
    destruct t; [congruence | reflexivity].
  - rewrite split_from_nonspace by exact Hsp. cbn [app split_from].
    rewrite isspace_space, IH. destruct t; [congruence | reflexivity].
Qed.

Lemma prepare_terms_entry (NON_NFKD_MAP : char -> option str)
  (terms : list str) (e : nat * list str) :
  In e (prepare_terms NON_NFKD_MAP terms) ->
  Forall (fun t => t <> [] /\ Forall (fun c => isspace c = false) t) (snd e).
Proof.
  intros Hin.
  assert (Htp : In (snd e) (map split (normalize_terms NON_NFKD_MAP terms))).
  { eapply Permutation_in; [apply (sorted_perm key_leb)|].
    rewrite <- prepare_terms_snd. now apply in_map. }
  apply in_map_iff in Htp. destruct Htp as [s0 [<- _]].
  apply Forall_forall. intros t Ht. split.
  - eapply split_from_nonempty. exact Ht.
  - apply (split_from_tokens [] s0 t (Forall_nil _) Ht).
Qed.

(** X12.  The word that [build_automaton] stores for a term of the
    catalog splits back into the tokens of the term, so two entries of
    the catalog with the same word are the same entry: only a repeated
    term has its priority overwritten. *)
Theorem catalog_words_split (NON_NFKD_MAP : char -> option str)
  (terms : list str) (e1 e2 : nat * list str) :
  In e1 (prepare_terms NON_NFKD_MAP terms) ->
  In e2 (prepare_terms NON_NFKD_MAP terms) ->
  split (join [space] (snd e1)) = snd e1
  /\ (join [space] (snd e1) = join [space] (snd e2) -> e1 = e2).
Proof.
  intros H1 H2.
  pose proof (split_join _ (prepare_terms_entry _ _ _ H1)) as S1.
  pose proof (split_join _ (prepare_terms_entry _ _ _ H2)) as S2.
  split; [exact S1|]. intros Hj.
  assert (Hs : snd e1 = snd e2) by congruence.
  unfold prepare_terms in H1, H2.
  apply in_map_iff in H1, H2.
  destruct H1 as [tp1 [<- _]], H2 as [tp2 [<- _]]. simpl in Hs.
  now subst.
Qed.

Lemma normalized_app (a b : str) :
  normalized (a ++ b) = normalized a ++ normalized b.
Proof.
  unfold normalized, remove_accents_fast, translate, casefold_str.
  now rewrite !flat_map_app.
Qed.

Lemma normalized_flat_map (s : str) :
  normalized s = flat_map (fun c => normalized [c]) s.
Proof.
  induction s as [|c s IH]; [reflexivity|].
  change (c :: s) with ([c] ++ s). rewrite normalized_app, IH. reflexivity.
Qed.

Lemma normalized_char_space (c : char) :
  isspace c = true -> normalized [c] = [c].
Proof.
  intros Hc.
  unfold normalized, remove_accents_fast, translate, casefold_str.
  cbn [flat_map]. rewrite (casefold_space c Hc). cbn [app flat_map].
  unfold TRANSLATION_TABLE. rewrite (combining_space c Hc).
  now destruct ((0x80 <=? c)%N && (c <? 0x10ffff)%N).
Qed.

Lemma normalized_char_nonspace (c d : char) :
  isspace c = false -> In d (normalized [c]) -> isspace d = false.
Proof.
  intros Hc Hd.
  unfold normalized, remove_accents_fast in Hd.
  rewrite translate_filter in Hd. apply filter_In in Hd.
  destruct Hd as [Hd _]. unfold casefold_str in Hd. simpl in Hd.
  rewrite app_nil_r in Hd. eapply casefold_nonspace; eassumption.
Qed.

Lemma split_normalized (name : str) :
  split (normalized name) = filter nonemptyb (map normalized (split name)).
Proof.
  unfold split. rewrite normalized_flat_map.
  change (@nil char) with (flat_map (fun c => normalized [c]) []) at 1.
  rewrite split_from_flat_map
    by (intros; first [now apply normalized_char_space
                      | eapply normalized_char_nonspace; eassumption]).
  f_equal. apply map_ext. intros t. symmetry. apply normalized_flat_map.
Qed.

(** X13.  Normalization rewrites the name token by token: the tokens of
    the normalized text are the normalized tokens of the name, in their
    order, without those that normalization empties; no token is merged
    with another or split.  This holds for line 160 (punctuation stripped
    first) and for line 91. *)
Theorem normalization_keeps_tokens (name : str) :
  split (normalized (strip_punct name))
  = filter nonemptyb
      (map (fun t => normalized (strip_punct t)) (split name))
  /\ split (normalized name)
     = filter nonemptyb (map normalized (split name)).
Proof.
  split; [|apply split_normalized].
  exact (split_norm_all name).
Qed.

Lemma accepted_matches_space_only (a : Automaton) (name : str) (f : Flags)
  ms :
  wf_automaton a -> keys_space_only a ->
  accepted_matches a name f = Ok ms ->
  Forall (fun x : entry => space_only (snd (snd x))) ms.
Proof.
  intros Ha Hk. unfold accepted_matches.
  destruct (iter a _) as [occ|] eqn:E; simpl; [|discriminate].
  apply collect_matches_text; [|constructor].
  eapply iter_space_only; eassumption.
Qed.

(** X14.  The token list of line 194 has exactly as many tokens as the
    name when accent removal alone empties no token of the name: then
    line 199 pairs every token of the marked buffer with a token of the
    name and none is left over. *)
Theorem reinserted_tokens_count (name : str)
  (terms0 : list (nat * list str)) (f : Flags) (ms : list entry) :
  separator_free terms0 = true ->
  accepted_matches (build_automaton terms0) name f = Ok ms ->
  (forall t, In t (split (strip_tail name)) ->
             norm_all t = [] -> strip_punct t = []) ->
  length (reinsert (non_alphanum (split (strip_tail name)))
            (split (apply_all (norm_all (strip_tail name)) ms)))
  = length (split (strip_tail name)).
Proof.
  intros Hsf Hacc Htok.
  pose proof (build_automaton_wf terms0) as Hwf.
  pose proof (build_automaton_space_only terms0 Hsf) as Hkeys.
  rewrite reinsert_length. unfold split at 2.
  rewrite (split_from_mask (apply_all (norm_all (strip_tail name)) ms)
             (norm_all (strip_tail name)) [] []).
  - fold (split (norm_all (strip_tail name))).
    rewrite Nat.add_comm. now apply token_count_aligned.
  - apply apply_all_mask; [| |reflexivity].
    + exact (accepted_matches_genuine _ _ _ _ Hwf Hacc).
    + exact (accepted_matches_space_only _ _ _ _ Hwf Hkeys Hacc).
  - reflexivity.
Qed.

Lemma clean_built_total (a : Automaton) (name : str) (f : Flags) :
  wf_automaton a -> keys_space_only a -> kind a = AHOCORASICK ->
  exists out, clean a name f = Ok out.
Proof.
  intros Hwf Hkeys Hk. rewrite clean_accepted.
  destruct (accepted_matches a name f) as [ms|e] eqn:Eacc.
  - pose proof (accepted_matches_genuine _ _ _ _ Hwf Eacc) as Hg.
    pose proof (accepted_matches_space_only _ _ _ _ Hwf Hkeys Eacc) as Hsp.
    cbn [bind]. destruct (length ms =? 0); [eauto|].
    rewrite pop_all_apply_all. cbn [bind].
    set (nname := normalized (strip_punct (strip_tail name))) in *.
    destruct (build_final_ok (split (strip_tail name))
                (reinsert (non_alphanum (split (strip_tail name)))
                   (split (apply_all nname ms))) 0) as [final Hfinal].
    + rewrite reinsert_length. simpl. unfold split at 2.
      rewrite (split_from_mask (apply_all nname ms) nname [] [])
        by (try reflexivity; now apply apply_all_mask).
      pose proof (token_budget (strip_tail name)) as Hb.
      unfold norm_all in Hb. fold nname in Hb. unfold split in Hb at 1. lia.
    + rewrite Hfinal. cbn [bind]. eauto.
  - exfalso. unfold accepted_matches in Eacc.
    destruct (iter a _) as [occ|e'] eqn:Eit.
    + simpl in Eacc.
      destruct (collect_matches_genuine _ f occ []
                  (iter_genuine _ _ _ Hwf Eit) (Forall_nil _))
        as (ms & Hms & _).
      congruence.
    + unfold iter in Eit. rewrite Hk in Eit. discriminate.
Qed.

Lemma join_nonempty (t : str) (tp : list str) :
  t <> [] -> join [space] (t :: tp) <> [].
Proof.
  intros Ht. simpl. destruct tp; [exact Ht|].
  destruct t; [congruence | discriminate].
Qed.

(** X15.  [basename], the partial application to the default catalog:
    when the catalog holds a term with at least one token, a call made
    before any other call of the process, or after calls of [basename]
    only, returns a string for every name and every flag setting. *)
Theorem basename_total
  (terms_by_type terms_by_country : list (str * list str))
  (NON_NFKD_MAP : char -> option str) (st : State) (name : str) (f : Flags) :
  (exists e, In e (prepare_default_terms terms_by_type terms_by_country
                     NON_NFKD_MAP)
             /\ snd e <> []) ->
  st = None
  \/ st = Some (build_automaton
                  (prepare_default_terms terms_by_type terms_by_country
                     NON_NFKD_MAP)) ->
  exists out,
    basename terms_by_type terms_by_country NON_NFKD_MAP st name f
    = (Some (build_automaton
               (prepare_default_terms terms_by_type terms_by_country
                  NON_NFKD_MAP)),
       Ok out).
Proof.
  intros [e [Hin Hne]] Hst. unfold basename, custom_basename.
  set (cat := prepare_default_terms terms_by_type terms_by_country
                NON_NFKD_MAP) in *.
  assert (Heff : effective st cat = build_automaton cat)
    by (destruct Hst as [->| ->]; reflexivity).
  rewrite Heff.
  destruct (clean_built_total (build_automaton cat) name f) as [out Hout].
  - apply build_automaton_wf.
  - apply build_automaton_space_only. apply prepare_terms_separator_free.
  - apply build_automaton_kind. exists e. split; [exact Hin|].
    pose proof (prepare_terms_entry _ _ _ Hin) as He.
    destruct (snd e) as [|t tp]; [congruence|].
    inversion He as [|? ? [Ht _] _]; subst. now apply join_nonempty.
  - exists out. now rewrite Hout.
Qed.

End TokensMore.

(** ** [custom_basename_old] *)

Lemma subseq_refl {A} (l : list A) : subseq l l.
Proof. induction l; constructor; assumption. Qed.

Lemma subseq_trans {A} (l1 l2 l3 : list A) :
  subseq l1 l2 -> subseq l2 l3 -> subseq l1 l3.
Proof.
  intros H12 H23. revert l1 H12.
  induction H23 as [l|x l2 l3 _ IH|x l2 l3 _ IH]; intros l1 H12.
  - inversion H12. constructor.
  - apply subseq_skip. now apply IH.
  - inversion H12; subst.
    + constructor.
    + apply subseq_skip. now apply IH.
    + apply subseq_take. now apply IH.
Qed.

Lemma subseq_skipn {A} (n : nat) (l : list A) : subseq (skipn n l) l.
Proof.
  revert n. induction l as [|x l IH]; intros [|n]; simpl;
    try apply subseq_refl.
  apply subseq_skip. apply IH.
Qed.

Lemma subseq_cut {A} (a b : nat) (l : list A) :
  a <= b -> subseq (firstn a l ++ skipn b l) l.
Proof.
  revert a b. induction l as [|x l IH]; intros a b Hab.
  - rewrite firstn_nil, skipn_nil. constructor.
  - destruct a as [|a].
    + simpl firstn. simpl app. apply subseq_skipn.
    + destruct b as [|b]; [lia|]. simpl. apply subseq_take.
      apply IH. lia.
Qed.

Lemma del_slice_subseq {A} (l : list A) (a b : Z) :
  subseq (del_slice l a b) l.
Proof.
  unfold del_slice, slice_assign. simpl. apply subseq_cut. lia.
Qed.

Lemma del_index_subseq {A} (l l' : list A) (i : Z) :
  del_index l i = Ok l' -> subseq l' l.
Proof.
  unfold del_index.
  set (i' := Z.to_nat
               (if (i <? 0)%Z then (i + Z.of_nat (length l))%Z else i)).
  destruct (_ || _)%bool; [discriminate|].
  intros H. assert (Hl : l' = firstn i' l ++ skipn (S i') l) by congruence.
  rewrite Hl. apply (subseq_cut i' (S i') l). lia.
Qed.

Lemma fold_left_invariant {A B} (P : A -> Prop) (step : A -> B -> A)
  (l : list B) (a : A) :
  (forall a x, P a -> P (step a x)) -> P a -> P (fold_left step l a).
Proof.
  intros Hstep. revert a. induction l as [|x l IH]; intros a Ha; simpl; auto.
Qed.

Lemma fold_result_invariant {A B} (P : A -> Prop)
  (step : A -> B -> result A) (l : list B) (a a' : A) :
  (forall a x a', P a -> step a x = Ok a' -> P a') ->
  P a -> fold_result step l a = Ok a' -> P a'.
Proof.
  intros Hstep. revert a. induction l as [|x l IH]; intros a Ha; simpl.
  - now intros [= <-].
  - destruct (step a x) as [a1|] eqn:E; simpl; [|discriminate].
    apply IH. eapply Hstep; eassumption.
Qed.

Section Old.

Context {U : Unicode}.

Lemma suffix_step_subseq (nparts : list str) (st : Parts)
  (term : nat * list str) :
  subseq (snd st) nparts -> subseq (snd (suffix_step st term)) nparts.
Proof.
  destruct st as [nn np], term as [k tp]. simpl. intros H.
  destruct (tokens_eqb _ _); simpl; [|exact H].
  eapply subseq_trans; [apply del_slice_subseq | exact H].
Qed.

Lemma prefix_step_subseq (nparts : list str) (st : Parts)
  (term : nat * list str) :
  subseq (snd st) nparts -> subseq (snd (prefix_step st term)) nparts.
Proof.
  destruct st as [nn np], term as [k tp]. simpl. intros H.
  destruct (tokens_eqb _ _); simpl; [|exact H].
  eapply subseq_trans; [apply del_slice_subseq | exact H].
Qed.

Lemma middle_at_subseq (nparts : list str) (k : Z) (tp : list str)
  (st : Parts) (i : Z) :
  subseq (snd st) nparts -> subseq (snd (middle_at k tp st i)) nparts.
Proof.
  destruct st as [nn np]. simpl. intros H.
  destruct (tokens_eqb _ _); simpl; [|exact H].
  eapply subseq_trans; [apply del_slice_subseq | exact H].
Qed.

Lemma middle_step_subseq (nparts : list str) (nnsize : Z) (st st' : Parts)
  (term : nat * list str) :
  subseq (snd st) nparts ->
  middle_step nnsize st term = Ok st' ->
  subseq (snd st') nparts.
Proof.
  destruct term as [k tp]. unfold middle_step. intros H.
  destruct (1 <? Z.of_nat k)%Z.
  - destruct (1 <? nnsize - Z.of_nat k)%Z; intros [= <-]; [|exact H].
    apply fold_left_invariant; [|exact H].
    intros a x. apply middle_at_subseq.
  - destruct (py_index tp 0) as [x|]; simpl; [|discriminate].
    destruct (index_of x _) as [idx|]; [|now intros [= <-]].
    destruct (del_index (fst st) _) as [nn'|]; simpl; [|discriminate].
    destruct (del_index (snd st) _) as [np'|] eqn:E; simpl; [|discriminate].
    intros [= <-]. simpl.
    eapply subseq_trans; [eapply del_index_subseq; exact E | exact H].
Qed.

(** X16.  Whatever [custom_basename_old] returns is made of tokens of
    the trimmed name, as they were written and in their order, joined by
    single spaces and trimmed: the loops only delete tokens. *)
Theorem custom_basename_old_keeps_tokens (name : str)
  (terms : list (nat * list str)) (f : Flags) (out : str) :
  custom_basename_old name terms f = Ok out ->
  exists final,
    subseq final (split (strip_tail name))
    /\ out = strip_tail (join [space] final).
Proof.
  unfold custom_basename_old.
  set (nparts := split (strip_tail name)).
  set (st0 := (map strip_punct (split (normalized (strip_tail name))),
               nparts)).
  set (st1 := if suffix f then fold_left suffix_step terms st0 else st0).
  set (st2 := if prefix f then fold_left prefix_step terms st1 else st1).
  assert (H0 : subseq (snd st0) nparts) by apply subseq_refl.
  assert (H1 : subseq (snd st1) nparts).
  { unfold st1. destruct (suffix f); [|exact H0].
    apply fold_left_invariant; [|exact H0].
    intros a x. apply suffix_step_subseq. }
  assert (H2 : subseq (snd st2) nparts).
  { unfold st2. destruct (prefix f); [|exact H1].
    apply fold_left_invariant; [|exact H1].
    intros a x. apply prefix_step_subseq. }
  destruct (middle f).
  - destruct (fold_result _ terms st2) as [st3|] eqn:E; simpl;
      [|discriminate].
    intros [= <-]. exists (snd st3). split; [|reflexivity].
    eapply (fold_result_invariant (fun st => subseq (snd st) nparts));
      [|exact H2|exact E].
    intros a x a'. apply middle_step_subseq.
  - simpl. intros [= <-]. exists (snd st2). auto.
Qed.

(** X17.  With an empty catalog, or with the three flags off,
    [custom_basename_old] does not raise and returns the tokens of the
    trimmed name joined by single spaces and trimmed again: unlike
    [custom_basename], it does not keep the white space of the name. *)
Theorem custom_basename_old_passthrough (name : str)
  (terms : list (nat * list str)) (f : Flags) :
  terms = []
  \/ (suffix f = false /\ prefix f = false /\ middle f = false) ->
  custom_basename_old name terms f
  = Ok (strip_tail (join [space] (split (strip_tail name)))).
Proof.
  unfold custom_basename_old. intros [->|(-> & -> & ->)].
  - destruct (suffix f), (prefix f), (middle f); reflexivity.
  - reflexivity.
Qed.

End Old.

Lemma custom_basename_old_keeps_tokens_witness :
  exists final,
    subseq final (split (strip_tail (py "Acme & Sons, Ltd.")))
    /\ py "Acme & Sons" = strip_tail (join [space] final).
Proof.
  exact (custom_basename_old_keeps_tokens (py "Acme & Sons, Ltd.")
           [(1, [py "ltd"])] default_flags (py "Acme & Sons") eq_refl).
Defined.

Lemma custom_basename_old_passthrough_witness :
  custom_basename_old (py "Acme   Ltd, ") [] default_flags
  = Ok (py "Acme Ltd").
Proof.
  exact (custom_basename_old_passthrough (py "Acme   Ltd, ") []
           default_flags (or_introl eq_refl)).
Defined.

Lemma clamp_nonneg (len i : Z) : (0 <= i)%Z -> clamp len i = Z.min i len.
Proof.
  intros Hi. unfold clamp. destruct (Z.ltb_spec i 0); [lia | reflexivity].
Qed.

Lemma clamp_neg (len : Z) (k : nat) :
  clamp len (- Z.of_nat k)
  = if Nat.eqb k 0 then Z.min 0 len else Z.max 0 (len - Z.of_nat k).
Proof.
  unfold clamp. destruct (Nat.eqb_spec k 0) as [->|Hk].
  - reflexivity.
  - destruct (Z.ltb_spec (- Z.of_nat k) 0); [f_equal; lia | lia].
Qed.

Lemma del_slice_length {A} (l : list A) (a b : Z) :
  length (del_slice l a b)
  = Nat.min (Z.to_nat (clamp (Z.of_nat (length l)) a)) (length l)
    + (length l
       - Z.to_nat (Z.max (clamp (Z.of_nat (length l)) a)
                     (clamp (Z.of_nat (length l)) b))).
Proof.
  unfold del_slice, slice_assign.
  rewrite length_app, length_firstn. f_equal. apply length_skipn.
Qed.

Lemma del_suffix_le {A} (l1 l2 : list A) (k : nat) :
  length l1 <= length l2 ->
  length (del_slice l1 (- Z.of_nat k) (Z.of_nat (length l1)))
  <= length (del_slice l2 (- Z.of_nat k) (Z.of_nat (length l2))).
Proof.
  intros H. rewrite !del_slice_length, !clamp_neg.
  rewrite !clamp_nonneg by lia.
  generalize dependent (length l1). generalize (length l2).
  intros n2 n1 H. destruct (Nat.eqb k 0); lia.
Qed.

Lemma del_range_le {A} (l1 l2 : list A) (i k : Z) :
  (0 <= i)%Z -> (0 <= k)%Z ->
  length l1 <= length l2 ->
  length (del_slice l1 i (i + k)) <= length (del_slice l2 i (i + k)).
Proof.
  intros Hi Hk H. rewrite !del_slice_length.
  rewrite !clamp_nonneg by lia.
  generalize dependent (length l1). generalize (length l2).
  intros n2 n1 H. lia.
Qed.

Lemma index_of_lt (x : str) (l : list str) (i : nat) :
  index_of x l = Some i -> i < length l.
Proof.
  revert i. induction l as [|y l IH]; intros i; simpl; [discriminate|].
  destruct (str_eqb y x); [intros [= <-]; lia|].
  destruct (index_of x l) as [j|]; [|discriminate].
  intros [= <-]. specialize (IH j eq_refl). lia.
Qed.

Lemma slice_inner_length {A} (l : list A) :
  length (slice l 1 (-1)) = length l - 2.
Proof.
  unfold slice, clamp. rewrite length_firstn, length_skipn.
  change (1 <? 0)%Z with false. change (-1 <? 0)%Z with true. cbv iota.
  generalize (length l). intros n. lia.
Qed.

Lemma del_index_ok {A} (l : list A) (i : nat) :
  i < length l ->
  exists l', del_index l (Z.of_nat i) = Ok l' /\ length l' = length l - 1.
Proof.
  intros Hi. unfold del_index.
  destruct (Z.ltb_spec (Z.of_nat i) 0); [lia|].
  destruct (Z.ltb_spec (Z.of_nat i) 0); [lia|].
  destruct (Z.leb_spec (Z.of_nat (length l)) (Z.of_nat i)); [lia|].
  cbn [orb]. eexists. split; [reflexivity|].
  rewrite length_app, length_firstn, length_skipn, Nat2Z.id.
  clear - Hi. generalize dependent (length l). intros n Hi. lia.
Qed.

Lemma suffix_step_ok (st : Parts) (term : nat * list str) :
  parts_ok st -> parts_ok (suffix_step st term).
Proof.
  destruct st as [nn np], term as [k tp]. unfold parts_ok. simpl. intros H.
  destruct (tokens_eqb _ _); simpl; [|exact H]. now apply del_suffix_le.
Qed.

Lemma prefix_step_ok (st : Parts) (term : nat * list str) :
  parts_ok st -> parts_ok (prefix_step st term).
Proof.
  destruct st as [nn np], term as [k tp]. unfold parts_ok. simpl. intros H.
  destruct (tokens_eqb _ _); simpl; [|exact H].
  apply (del_range_le nn np 0 (Z.of_nat k)); lia.
Qed.

Lemma middle_at_ok (k : nat) (tp : list str) (st : Parts) (i : Z) :
  (0 <= i)%Z -> parts_ok st -> parts_ok (middle_at (Z.of_nat k) tp st i).
Proof.
  destruct st as [nn np]. unfold parts_ok. simpl. intros Hi H.
  destruct (tokens_eqb _ _); simpl; [|exact H].
  apply del_range_le; lia.
Qed.

Lemma middle_loop_ok (k : nat) (tp : list str) (n : Z) (st : Parts) :
  parts_ok st ->
  parts_ok (fold_left (middle_at (Z.of_nat k) tp) (range0 n) st).
Proof.
  unfold range0. generalize (seq 0 (Z.to_nat n)). intros l. revert st.
  induction l as [|i l IH]; intros st H; simpl; [exact H|].
  apply IH. apply middle_at_ok; [lia | exact H].
Qed.

Lemma middle_step_ok (nnsize : Z) (st : Parts) (term : nat * list str) :
  parts_ok st -> middle_safe term = true ->
  exists st', middle_step nnsize st term = Ok st' /\ parts_ok st'.
Proof.
  destruct term as [k tp]. unfold middle_safe, middle_step. simpl.
  intros Hst Hsafe.
  destruct (Z.ltb_spec 1 (Z.of_nat k)).
  - destruct (1 <? nnsize - Z.of_nat k)%Z; eexists; split;
      try reflexivity; [now apply middle_loop_ok | exact Hst].
  - destruct (Nat.ltb_spec 1 k); [lia|]. simpl in Hsafe.
    destruct tp as [|x tp]; [discriminate|].
    unfold py_index at 1. simpl.
    destruct (index_of x (slice (fst st) 1 (-1))) as [idx|] eqn:Ei;
      [|eauto].
    apply index_of_lt in Ei. rewrite slice_inner_length in Ei.
    unfold parts_ok in Hst.
    replace (Z.of_nat idx + 1)%Z with (Z.of_nat (S idx)) by lia.
    destruct (del_index_ok (fst st) (S idx)) as (nn' & -> & Hnn); [lia|].
    destruct (del_index_ok (snd st) (S idx)) as (np' & -> & Hnp); [lia|].
    simpl. eexists. split; [reflexivity|]. unfold parts_ok. simpl. lia.
Qed.

Lemma middle_step_raise (nnsize : Z) (st : Parts) (term : nat * list str) :
  middle_safe term = false -> middle_step nnsize st term = Raise IndexError.
Proof.
  destruct term as [k tp]. unfold middle_safe, middle_step. simpl.
  intros Hsafe. apply orb_false_iff in Hsafe. destruct Hsafe as [Hk Htp].
  apply Nat.ltb_ge in Hk.
  destruct (Z.ltb_spec 1 (Z.of_nat k)); [lia|].
  destruct tp; [reflexivity | discriminate].
Qed.

Lemma middle_loop_result (nnsize : Z) (terms : list (nat * list str))
  (st : Parts) :
  parts_ok st ->
  if forallb middle_safe terms
  then exists st', fold_result (middle_step nnsize) terms st = Ok st'
  else fold_result (middle_step nnsize) terms st = Raise IndexError.
Proof.
  revert st. induction terms as [|term terms IH]; intros st Hst; simpl.
  - eauto.
  - destruct (middle_safe term) eqn:Es; simpl.
    + destruct (middle_step_ok nnsize st term Hst Es) as (st' & -> & Hst').
      simpl. now apply IH.
    + now rewrite middle_step_raise.
Qed.

Lemma middle_step_exn (nnsize : Z) (st : Parts) (term : nat * list str)
  (e : exn) :
  middle_step nnsize st term = Raise e -> e = IndexError.
Proof.
  destruct term as [k tp]. unfold middle_step.
  destruct (1 <? Z.of_nat k)%Z.
  - destruct (1 <? nnsize - Z.of_nat k)%Z; discriminate.
  - destruct tp as [|x tp]; [now intros [= <-]|].
    unfold py_index at 1. simpl.
    destruct (index_of x _) as [idx|]; [|discriminate].
    unfold del_index.
    repeat (destruct (_ || _)%bool; cbn [bind];
            try (now intros [= <-]); try discriminate).
Qed.

Lemma middle_loop_raise (nnsize : Z) (terms : list (nat * list str))
  (st : Parts) :
  forallb middle_safe terms = false ->
  fold_result (middle_step nnsize) terms st = Raise IndexError.
Proof.
  revert st. induction terms as [|term terms IH]; intros st; simpl;
    [discriminate|].
  destruct (middle_safe term) eqn:Es; simpl.
  - intros H. destruct (middle_step nnsize st term) as [st'|e] eqn:E; simpl.
    + now apply IH.
    + now rewrite (middle_step_exn _ _ _ _ E).
  - intros _. now rewrite middle_step_raise.
Qed.

(** X18.  With [middle] enabled, [custom_basename_old] raises
    [IndexError] on every name when the catalog holds a term without
    tokens whose size is 0 or 1: line 117 asks for its first token. *)
Theorem custom_basename_old_raises {U : Unicode} (name : str)
  (terms : list (nat * list str)) (f : Flags) :
  middle f = true ->
  forallb middle_safe terms = false ->
  custom_basename_old name terms f = Raise IndexError.
Proof.
  intros Hm Hsafe. unfold custom_basename_old. rewrite Hm.
  now rewrite middle_loop_raise.
Qed.

Section OldTotal.

Context {U : Unicode} {L : UnicodeLaws U}.

Lemma old_parts_ok (name : str) :
  parts_ok (map strip_punct (split (normalized name)), split name).
Proof.
  unfold parts_ok. simpl. rewrite length_map, split_normalized.
  rewrite <- (length_map normalized (split name)). apply filter_length_le.
Qed.

Lemma custom_basename_old_ok (name : str) (terms : list (nat * list str))
  (f : Flags) :
  middle f = false \/ forallb middle_safe terms = true ->
  exists out, custom_basename_old name terms f = Ok out.
Proof.
  intros H. unfold custom_basename_old.
  set (st0 := (map strip_punct (split (normalized (strip_tail name))),
               split (strip_tail name))).
  set (st1 := if suffix f then fold_left suffix_step terms st0 else st0).
  set (st2 := if prefix f then fold_left prefix_step terms st1 else st1).
  assert (H0 : parts_ok st0) by apply old_parts_ok.
  assert (H1 : parts_ok st1).
  { unfold st1. destruct (suffix f); [|exact H0].
    apply fold_left_invariant; [|exact H0].
    intros a x. apply suffix_step_ok. }
  assert (H2 : parts_ok st2).
  { unfold st2. destruct (prefix f); [|exact H1].
    apply fold_left_invariant; [|exact H1].
    intros a x. apply prefix_step_ok. }
  destruct (middle f); [|simpl; eauto].
  destruct H as [H|H]; [discriminate|].
  pose proof (middle_loop_result
                (Z.of_nat (length (map strip_punct
                                     (split (normalized (strip_tail name))))))
                terms st2 H2) as Hr.
  rewrite H in Hr. destruct Hr as [st3 ->]. simpl. eauto.
Qed.

(** X19.  [custom_basename_old] returns a string for every name when
    [middle] is off, or when every term of size 0 or 1 in the catalog has
    a token: the deletions of lines 119-120 stay in range, because the
    normalized tokens never outnumber the tokens of the name. *)
Theorem custom_basename_old_total (name : str)
  (terms : list (nat * list str)) (f : Flags) :
  middle f = false \/ forallb middle_safe terms = true ->
  exists out, custom_basename_old name terms f = Ok out.
Proof.
  intros H. destruct (custom_basename_old_ok name terms f H) as [out Hout].
  exists out. exact Hout.
Qed.

(** X20.  [basename_old], the partial application to the default
    catalog, raises [IndexError] exactly when [middle] is enabled and
    some entry of the catalog has no token, which is the case when a raw
    term holds nothing but white space, [.], [,], [-] and what
    [remove_accents] drops; otherwise it returns a string. *)
Theorem basename_old_result
  (terms_by_type terms_by_country : list (str * list str))
  (NON_NFKD_MAP : char -> option str) (name : str) (f : Flags) :
  (basename_old terms_by_type terms_by_country NON_NFKD_MAP name f
   = Raise IndexError
   <-> middle f = true
       /\ Exists (fun e => snd e = [])
            (prepare_default_terms terms_by_type terms_by_country
               NON_NFKD_MAP))
  /\ ((exists out,
          basename_old terms_by_type terms_by_country NON_NFKD_MAP name f
          = Ok out)
      \/ basename_old terms_by_type terms_by_country NON_NFKD_MAP name f
         = Raise IndexError).
Proof.
  unfold basename_old.
  set (cat := prepare_default_terms terms_by_type terms_by_country
                NON_NFKD_MAP).
  assert (Hsafe : forallb middle_safe cat = false
                  <-> Exists (fun e => snd e = []) cat).
  { assert (Hlen : Forall (fun e => fst e = length (snd e)) cat).
    { unfold cat, prepare_default_terms, prepare_terms.
      apply Forall_forall. intros e He.
      apply in_map_iff in He. destruct He as [tp [<- _]]. reflexivity. }
    induction Hlen as [|[k tp] l Hk _ IH]; simpl.
    - split; [discriminate | inversion 1].
    - simpl in Hk. subst k. unfold middle_safe at 1. simpl.
      destruct tp as [|t tp]; simpl.
      + split; [intros _; now left | reflexivity].
      + rewrite orb_true_r. simpl. rewrite IH.
        split; [intros H; now right|].
        inversion 1; subst; [discriminate | assumption]. }
  destruct (middle f) eqn:Em.
  - destruct (forallb middle_safe cat) eqn:Ef.
    + destruct (custom_basename_old_ok name cat f) as [out Hout];
        [now right|].
      split; [|left; eauto]. split.
      * rewrite Hout. discriminate.
      * intros [_ Hex]. apply Hsafe in Hex. discriminate.
    + assert (Hr : custom_basename_old name cat f = Raise IndexError).
      { unfold custom_basename_old. rewrite Em.
        now rewrite middle_loop_raise. }
      split; [|now right]. split; [|auto].
      intros _. split; [reflexivity | now apply Hsafe].
  - destruct (custom_basename_old_ok name cat f) as [out Hout]; [now left|].
    split; [|left; eauto]. split.
    + rewrite Hout. discriminate.
    + intros [H _]. discriminate.
Qed.

End OldTotal.

(** ** The further properties at concrete inputs *)

(** A map of [non_nfkd_map.py] that knows no character *)
Lemma remove_accents_spec_witness :
  remove_accents (fun _ => None) (py "Ltd" ++ [0x301%N]) = py "ltd".
Proof.
  exact (eq_trans
           (proj1 (proj2 (remove_accents_spec (fun _ => None)
                            (py "Ltd" ++ [0x301%N]))
                     (fun _ => eq_refl)))
           eq_refl).
Defined.

(** The catalog of [Ltd.] and [Holding Company] *)
Lemma catalog_words_split_witness :
  split (join [space] [py "holding"; py "company"])
  = [py "holding"; py "company"].
Proof.
  refine (proj1 (@catalog_words_split frag frag_laws (fun _ => None)
                   [py "Ltd."; py "Holding Company"]
                   (2, [py "holding"; py "company"]) (1, [py "ltd"]) _ _)).
  - simpl. auto.
  - simpl. auto.
Defined.

(** A name with a token that normalization empties *)
Lemma normalization_keeps_tokens_witness :
  split (normalized (py "Acme " ++ [0x301%N] ++ py " Ltd"))
  = [py "acme"; py "ltd"].
Proof.
  exact (eq_trans
           (proj2 (@normalization_keeps_tokens frag frag_laws
                     (py "Acme " ++ [0x301%N] ++ py " Ltd")))
           eq_refl).
Defined.

(** [Acme & - Ltd.]: four tokens, [-] set aside and reinserted *)
Lemma reinserted_tokens_count_witness :
  length (reinsert (non_alphanum (split (strip_tail (py "Acme & - Ltd."))))
            (split (apply_all (norm_all (strip_tail (py "Acme & - Ltd.")))
                      [(0, (8%Z, 10%Z, py "ltd"))])))
  = 4.
Proof.
  refine (@reinserted_tokens_count frag frag_laws (py "Acme & - Ltd.")
            [(1, [py "ltd"])] default_flags [(0, (8%Z, 10%Z, py "ltd"))]
            eq_refl eq_refl _).
  intros t Ht Hn. simpl in Ht.
  repeat (destruct Ht as [<-|Ht];
          [first [reflexivity | vm_compute in Hn; discriminate Hn]|]).
  destruct Ht.
Defined.

(** A first call of [basename] with the term data of [Ltd.] *)
Lemma basename_total_witness :
  exists out,
    basename [(py "Limited", [py "Ltd."])] [] (fun _ => None) None
      (py "Acme Ltd.") default_flags
    = (Some (build_automaton
               (prepare_default_terms [(py "Limited", [py "Ltd."])] []
                  (fun _ => None))),
       Ok out).
Proof.
  apply (@basename_total frag frag_laws).
  - exists (1, [py "ltd"]). split; [simpl; auto | discriminate].
  - now left.
Defined.

(** A catalog with an entry without tokens, [middle] enabled *)
Lemma custom_basename_old_raises_witness :
  custom_basename_old (py "Acme Ltd") [(1, [py "ltd"]); (0, [])]
    {| suffix := true; prefix := false; middle := true |}
  = Raise IndexError.
Proof.
  apply custom_basename_old_raises; reflexivity.
Defined.

Lemma custom_basename_old_total_witness :
  exists out,
    custom_basename_old (py "Ltd Acme Ltd Foo Ltd") [(1, [py "ltd"])]
      {| suffix := true; prefix := true; middle := true |}
    = Ok out.
Proof.
  apply (@custom_basename_old_total frag frag_laws).
  right. reflexivity.
Defined.

(** Term data with the raw term [-]: the catalog ends with an entry
    without tokens. *)
Lemma basename_old_result_witness :
  basename_old [(py "Limited", [py "Ltd."; py "-"])] [] (fun _ => None)
    (py "Acme Ltd") {| suffix := true; prefix := false; middle := true |}
  = Raise IndexError.
Proof.
  apply (proj1 (@basename_old_result frag frag_laws
                  [(py "Limited", [py "Ltd."; py "-"])] [] (fun _ => None)
                  (py "Acme Ltd")
                  {| suffix := true; prefix := false; middle := true |})).
  split; [reflexivity|].
  apply Exists_exists. exists (0, []). split; [simpl; auto | reflexivity].
Defined.

(** [Sons,] is kept as it was written before the last trim. *)
Lemma retained_tokens_witness :
  py "Acme & Sons" = strip_tail (py "Acme & Sons, Ltd.")
  \/ exists final,
       subseq final (split (strip_tail (py "Acme & Sons, Ltd.")))
       /\ py "Acme & Sons" = strip_tail (join [space] final).
Proof.
  exact (retained_tokens (build_automaton [(1, [py "ltd"])])
           (py "Acme & Sons, Ltd.") default_flags (py "Acme & Sons")
           eq_refl).
Defined.
